(** * ITQ small-code generation: [add_codes.py]

    A shallow embedding of
    [bin/scripts/runners/memex_hbase_gpu_machine/itq_training/add_codes.py]:
    the batch quantisation performed by [SmallCodeProcess.run], the worker's
    receive loop, and the dispatcher [async_compute_smallcodes] with its two
    queues, as an interleaving transition system. *)

From Stdlib Require Import PrimFloat Uint63.
From stdpp Require Import base numbers list strings.

Set Default Proof Using "Type".
Open Scope Z_scope.

(** ** Scalars

    The arrays hold NumPy numbers.  [Scalar] has the elementwise operations
    of the dtype; no law is asked of them, so IEEE binary64 is an instance
    as much as the integers are. *)

Class Scalar (F : Type) := {
  f_zero : F;
  f_add : F -> F -> F;
  f_sub : F -> F -> F;
  f_mul : F -> F -> F;
  (** [x >= 0] *)
  f_ge0 : F -> bool
}.

#[export] Instance Z_Scalar : Scalar Z := {
  f_zero := 0;
  f_add := Z.add;
  f_sub := Z.sub;
  f_mul := Z.mul;
  f_ge0 := fun x => 0 <=? x
}.

(** IEEE 754 binary64, NumPy's [float64]. *)
#[export] Instance float_Scalar : Scalar float := {
  f_zero := 0%float;
  f_add := PrimFloat.add;
  f_sub := PrimFloat.sub;
  f_mul := PrimFloat.mul;
  f_ge0 := fun x => PrimFloat.leb 0%float x
}.

(** ** [np.dot]

    NumPy computes the product of two two-dimensional arrays with loops of
    its own for integers and hands it to a BLAS for floating-point numbers.
    For these neither the order of the additions nor the rounding of the
    products is specified, and the value found for one row can depend on
    the rows it is multiplied along with.  The product is therefore a
    parameter of the model: [f_dot a b i j] is the entry at row [i] and
    column [j] of what [np.dot] returns for the arrays with rows [a] and
    [b]. *)
Class Dot (F : Type) := f_dot : list (list F) -> list (list F) -> nat -> nat -> F.

Section Sums.
Context {F : Type} `{Scalar F}.

(** Inner product, summed from the left, every operation on its own. *)
Definition inner (xs ys : list F) : F :=
  fold_left f_add (zip_with f_mul xs ys) f_zero.

(** The same, summed from the right. *)
Definition inner_from_right (xs ys : list F) : F :=
  foldr f_add f_zero (zip_with f_mul xs ys).

(** Two ways of computing the product, entry by entry. *)
Definition dot_from_left : Dot F :=
  fun a b i j => inner (nth i a []) ((fun row : list F => nth j row f_zero) <$> b).

Definition dot_from_right : Dot F :=
  fun a b i j =>
    inner_from_right (nth i a []) ((fun row : list F => nth j row f_zero) <$> b).

End Sums.

(** Exact arithmetic, as that of NumPy's integers: the operations obey
    the laws of a commutative ring, so that sums do not depend on the
    order they are taken in, and an entry of the product is the inner
    product of a row and a column.  IEEE numbers are not an instance
    ([float_not_exact] below). *)
Class Exact (F : Type) `{Scalar F} {DF : Dot F} : Prop := {
  f_add_comm : forall x y : F, f_add x y = f_add y x;
  f_add_assoc : forall x y z : F, f_add x (f_add y z) = f_add (f_add x y) z;
  f_add_zero : forall x : F, f_add f_zero x = x;
  f_sub_add : forall x y : F, f_add (f_sub x y) y = x;
  f_mul_comm : forall x y : F, f_mul x y = f_mul y x;
  f_mul_assoc : forall x y z : F, f_mul x (f_mul y z) = f_mul (f_mul x y) z;
  f_mul_add : forall x y z : F,
    f_mul x (f_add y z) = f_add (f_mul x y) (f_mul x z);
  f_dot_exact : forall (a b : list (list F)) (i j : nat),
    f_dot a b i j = dot_from_left a b i j
}.

(** The product over the integers, as NumPy's loops for integer dtypes
    compute it. *)
#[export] Instance Z_Dot : Dot Z := dot_from_left.

(** ** Data *)

(** A descriptor element as the script uses it: an identity, the vector
    returned by [d.vector()], and the truth value Python gives the object
    (the test [while packet:]). *)
Record DescriptorElement (F : Type) := {
  uuid : string;
  vector : list F;
  truth : bool
}.
Arguments uuid {F} _.
Arguments vector {F} _.
Arguments truth {F} _.

(** A two-dimensional [ndarray]: its shape and its rows. *)
Record ndarray2 (A : Type) := {
  shape0 : nat;
  shape1 : nat;
  rows : list (list A)
}.
Arguments Build_ndarray2 {A} _ _ _.
Arguments shape0 {A} _.
Arguments shape1 {A} _.
Arguments rows {A} _.

(** The fields of a [SmallCodeProcess] that [run] reads. *)
Record SmallCodeProcess (F : Type) := {
  r : ndarray2 F;
  m_vec : list F;
  batch : nat
}.
Arguments r {F} _.
Arguments m_vec {F} _.
Arguments batch {F} _.

(** Modelled from the spec: [bit_vector_to_int] of [smqtk.utils.bit_utils]
    is not part of the sources at hand.  The spec asks for one fixed
    bit-to-position mapping; the model packs the first bit as the most
    significant one. *)
Definition bit_vector_to_int (bits : list Z) : Z :=
  fold_left (fun c b => c * 2 + b) bits 0.

(** ** The queues

    [multiprocessing.Queue(maxsize)]: first in, first out; [put] blocks
    while [maxsize] items are in flight, and a [maxsize] of 0 (the default)
    means no bound; [get] blocks on an empty queue.  [None] stands for a
    call that blocks. *)
Record Queue (A : Type) := {
  maxsize : nat;
  items : list A
}.
Arguments Build_Queue {A} _ _.
Arguments maxsize {A} _.
Arguments items {A} _.

Definition q_full {A} (q : Queue A) : bool :=
  (0 <? maxsize q)%nat && (maxsize q <=? length (items q))%nat.

Definition q_put {A} (q : Queue A) (x : A) : option (Queue A) :=
  if q_full q then None
  else Some (Build_Queue (maxsize q) (items q ++ [x])).

Definition q_get {A} (q : Queue A) : option (A * Queue A) :=
  match items q with
  | [] => None
  | x :: rest => Some (x, Build_Queue (maxsize q) rest)
  end.

Section Model.
Context {F : Type} `{Scalar F} {DF : Dot F}.

Local Abbreviation Element := (DescriptorElement F).
Local Abbreviation result := (Z * Element)%type.

(** *** The NumPy operations of lines 88-91

    [None] stands for a raised exception. *)

(** [np.array(vs)] for a non-empty list of one-dimensional arrays.  Rows
    of unequal length do not form a two-dimensional array: the model
    raises there. *)
Definition np_array (vs : list (list F)) : option (ndarray2 F) :=
  let L := length (default [] (head vs)) in
  if forallb (fun v => Nat.eqb (length v) L) vs
  then Some (Build_ndarray2 (length vs) L vs)
  else None.

(** [m - v] for [m] of shape (n, L) and [v] of shape (M,), with NumPy's
    broadcasting: equal widths subtract column by column, a width of 1
    on either side is stretched, anything else raises. *)
Definition np_sub (m : ndarray2 F) (v : list F) : option (ndarray2 F) :=
  let L := shape1 m in
  let M := length v in
  if decide (L = M) then
    Some (Build_ndarray2 (shape0 m) L
            ((fun row : list F => zip_with f_sub row v) <$> rows m))
  else if decide (M = 1%nat) then
    Some (Build_ndarray2 (shape0 m) L
            ((fun row : list F => (fun x => f_sub x (nth 0 v f_zero)) <$> row) <$> rows m))
  else if decide (L = 1%nat) then
    Some (Build_ndarray2 (shape0 m) M
            ((fun row : list F => (fun c => f_sub (nth 0 row f_zero) c) <$> v) <$> rows m))
  else None.

Definition column (j : nat) (a : ndarray2 F) : list F :=
  (fun row : list F => nth j row f_zero) <$> rows a.

(** [np.dot(a, b)] for two-dimensional arrays: raises unless the inner
    dimensions agree; the result has the rows of [a] and the columns of
    [b], and its entries are those the product gives. *)
Definition np_dot (a b : ndarray2 F) : option (ndarray2 F) :=
  if decide (shape1 a = shape0 b) then
    Some (Build_ndarray2 (shape0 a) (shape1 b)
            ((fun i => (fun j => f_dot (rows a) (rows b) i j) <$> seq 0 (shape1 b))
               <$> seq 0 (shape0 a)))
  else None.

(** [np.zeros(shape, dtype=np.uint8)] *)
Definition np_zeros (n k : nat) : ndarray2 Z :=
  Build_ndarray2 n k (replicate n (replicate k 0)).

(** [z >= 0] *)
Definition np_ge0 (z : ndarray2 F) : ndarray2 bool :=
  Build_ndarray2 (shape0 z) (shape1 z) ((fun row : list F => f_ge0 <$> row) <$> rows z).

(** [b[mask] = x] *)
Definition np_set_where (b : ndarray2 Z) (mask : ndarray2 bool) (x : Z)
  : ndarray2 Z :=
  Build_ndarray2 (shape0 b) (shape1 b)
    (zip_with (zip_with (fun old (hit : bool) => if hit then x else old))
       (rows b) (rows mask)).

(** *** Lines 88-93 (and again 100-105): one batch

    The pairs are listed in the order the [for] loop puts them. *)
Definition compute_batch (self : SmallCodeProcess F) (d_elems : list Element)
  : option (list result) :=
  match d_elems with
  | [] =>
      (* np.array([]) has shape (0,): the subtraction and the product go
         through only against a mean of length at most 1 and a rotation
         without rows, and zip() then pairs nothing. *)
      if decide (length (m_vec self) <= 1 /\ shape0 (r self) = 0)%nat
      then Some [] else None
  | _ :: _ =>
      m ← np_array (vector <$> d_elems);
      c ← np_sub m (m_vec self);
      z ← np_dot c (r self);
      let b := np_set_where (np_zeros (shape0 z) (shape1 z)) (np_ge0 z) 1 in
      Some (zip_with (fun bits d => (bit_vector_to_int bits, d)) (rows b) d_elems)
  end.

(** ** The worker: [SmallCodeProcess.run] *)

(** What travels on the input queue: an element, or the terminal [None]. *)
Definition packet : Type := option Element.

(** The truth value of [packet] in [while packet:]. *)
Definition truthy (p : packet) : bool :=
  match p with
  | Some e => truth e
  | None => false
  end.

(** Where the worker goes once the [for] loop over a batch has put its last
    pair: back to [in_q.get()] (line 96), or out of [run] (line 106). *)
Inductive wcont := KLoop | KExit.

(** The control points of a worker process. *)
Inductive wstate :=
  (** blocked in [in_q.get()] (lines 77, 96) holding [d_elems] *)
  | WGet (d_elems : list Element)
  (** in a [for bits, d in zip(b, d_elems)] loop, about to put [o] and then
      [rest] (lines 93, 105) *)
  | WPut (o : result) (rest : list result) (k : wcont)
  (** [run] returned *)
  | WExited
  (** [run] raised *)
  | WRaised
  (** killed by [terminate()] *)
  | WTerminated.

(** After a batch is computed (or a pair is put): the next control point. *)
Definition emit (outs : list result) (k : wcont) : wstate :=
  match outs with
  | o :: rest => WPut o rest k
  | [] => match k with KLoop => WGet [] | KExit => WExited end
  end.

(** Lines 98-106: the code after the loop. *)
Definition flush (self : SmallCodeProcess F) (d_elems : list Element) : wstate :=
  match d_elems with
  | [] => WExited
  | _ :: _ =>
      match compute_batch self d_elems with
      | Some outs => emit outs KExit
      | None => WRaised
      end
  end.

(** Lines 79-94: the loop test and one loop body, from the point where
    [in_q.get()] returned [p]. *)
Definition on_packet (self : SmallCodeProcess F) (d_elems : list Element)
    (p : packet) : wstate :=
  match p with
  | Some descr_elem =>
      if truth descr_elem then
        let d_elems := d_elems ++ [descr_elem] in
        if decide (batch self <= length d_elems)%nat then
          match compute_batch self d_elems with
          | Some outs => emit outs KLoop
          | None => WRaised
          end
        else WGet d_elems
      else flush self d_elems
  | None => flush self d_elems
  end.

(** A worker on its own: it receives the packets [ps] one after the other
    and every [out_q.put] succeeds at once.  Returns the control point it
    ends in and the pairs it has put, in order. *)
Definition drain (w : wstate) : wstate * list result :=
  match w with
  | WPut o rest k => (emit [] k, o :: rest)
  | _ => (w, [])
  end.

Fixpoint feed (self : SmallCodeProcess F) (w : wstate) (ps : list packet)
  : wstate * list result :=
  match w, ps with
  | WGet d_elems, p :: ps' =>
      let '(w', outs) := drain (on_packet self d_elems p) in
      let '(w'', outs') := feed self w' ps' in
      (w'', outs ++ outs')
  | _, _ => (w, [])
  end.

Definition run (self : SmallCodeProcess F) (ps : list packet)
  : wstate * list result :=
  feed self (WGet []) ps.

(** ** The dispatcher: [async_compute_smallcodes] *)

(** The control points of the calling process. *)
Inductive mstate :=
  (** lines 136-139: [rest] is what the iterator still yields, [s] counts *)
  | MSend (rest : list Element) (s : nat)
  (** lines 146-147: [todo] workers have not been sent their [None] yet *)
  | MTerm (todo : nat) (s : nat)
  (** lines 153-157: iteration [i] of [xrange(s)] *)
  | MCollect (i : nat) (s : nat) (sc_d_return : list result)
  (** lines 168-172: the [finally] loop is at worker [j] *)
  | MFinally (j : nat) (sc_d_return : list result)
  (** the call returned [sc_d_return] *)
  | MReturned (sc_d_return : list result).

(** The whole system.  [fed] is a history variable: every packet put on
    [in_q] so far, in order. *)
Record system := {
  main : mstate;
  in_q : Queue packet;
  out_q : Queue result;
  workers : list wstate;
  fed : list packet
}.

(** Lines 120-131: both queues, [procs] workers, all started. *)
Definition start (descr_elements : list Element) (procs : nat) : system :=
  {| main := MSend descr_elements 0;
     in_q := Build_Queue 0 [];
     out_q := Build_Queue (procs * 2) [];
     workers := replicate procs (WGet []);
     fed := [] |}.

Definition alive (w : wstate) : bool :=
  match w with
  | WGet _ | WPut _ _ _ => true
  | _ => false
  end.

(** Lines 170-172: [if w.is_alive(): w.terminate()], then [w.join()]. *)
Definition terminate (w : wstate) : wstate :=
  if alive w then WTerminated else w.

(** One step of the calling process; [None] when it is blocked or done. *)
Definition main_step (st : system) : option system :=
  match main st with
  | MSend (de :: rest) s =>
      q ← q_put (in_q st) (Some de);
      Some {| main := MSend rest (S s); in_q := q; out_q := out_q st;
              workers := workers st; fed := fed st ++ [Some de] |}
  | MSend [] s =>
      Some {| main := MTerm (length (workers st)) s; in_q := in_q st;
              out_q := out_q st; workers := workers st; fed := fed st |}
  | MTerm (S todo) s =>
      q ← q_put (in_q st) None;
      Some {| main := MTerm todo s; in_q := q; out_q := out_q st;
              workers := workers st; fed := fed st ++ [None] |}
  | MTerm 0 s =>
      Some {| main := MCollect 0 s []; in_q := in_q st; out_q := out_q st;
              workers := workers st; fed := fed st |}
  | MCollect i s sc_d_return =>
      if decide (i < s)%nat then
        '(x, q) ← q_get (out_q st);
        Some {| main := MCollect (S i) s (sc_d_return ++ [x]); in_q := in_q st;
                out_q := q; workers := workers st; fed := fed st |}
      else
        Some {| main := MFinally 0 sc_d_return; in_q := in_q st;
                out_q := out_q st; workers := workers st; fed := fed st |}
  | MFinally j sc_d_return =>
      match workers st !! j with
      | Some w =>
          Some {| main := MFinally (S j) sc_d_return; in_q := in_q st;
                  out_q := out_q st; workers := <[j := terminate w]> (workers st);
                  fed := fed st |}
      | None =>
          Some {| main := MReturned sc_d_return; in_q := in_q st;
                  out_q := out_q st; workers := workers st; fed := fed st |}
      end
  | MReturned _ => None
  end.

(** One step of worker [i]; [None] when it is blocked, gone, or absent. *)
Definition worker_step (self : SmallCodeProcess F) (i : nat) (st : system)
  : option system :=
  w ← workers st !! i;
  match w with
  | WGet d_elems =>
      '(p, q) ← q_get (in_q st);
      Some {| main := main st; in_q := q; out_q := out_q st;
              workers := <[i := on_packet self d_elems p]> (workers st);
              fed := fed st |}
  | WPut o rest k =>
      q ← q_put (out_q st) o;
      Some {| main := main st; in_q := in_q st; out_q := q;
              workers := <[i := emit rest k]> (workers st);
              fed := fed st |}
  | _ => None
  end.

(** Who moves next. *)
Inductive agent := Main | Worker (i : nat).

Definition step (self : SmallCodeProcess F) (a : agent) (st : system)
  : option system :=
  match a with
  | Main => main_step st
  | Worker i => worker_step self i st
  end.

(** Runs a schedule; [None] when it asks a blocked agent to move. *)
Fixpoint exec (self : SmallCodeProcess F) (sched : list agent) (st : system)
  : option system :=
  match sched with
  | [] => Some st
  | a :: sched' => st' ← step self a st; exec self sched' st'
  end.

(** Line 123: the workers the dispatcher creates take the default batch
    size of line 65. *)
Definition new_worker (r0 : ndarray2 F) (mean_vec : list F) : SmallCodeProcess F :=
  {| r := r0; m_vec := mean_vec; batch := 500 |}.

(** The agents that can move in [st]. *)
Definition enabled (self : SmallCodeProcess F) (st : system) : list agent :=
  filter (fun a => is_Some (step self a st))
    (Main :: (Worker <$> seq 0 (length (workers st)))).

(** The value the call has returned, if it has. *)
Definition returned (st : system) : option (list result) :=
  match main st with
  | MReturned sc_d_return => Some sc_d_return
  | _ => None
  end.

(** [async_compute_smallcodes(r, mean_vec, descr_elements, procs)] under
    the schedule [sched]: what the call returns, if the schedule takes it
    that far. *)
Definition async_compute_smallcodes (r0 : ndarray2 F) (mean_vec : list F)
    (descr_elements : list Element) (procs : nat) (sched : list agent)
  : option (list result) :=
  st ← exec (new_worker r0 mean_vec) sched (start descr_elements procs);
  returned st.

(** ** The quantizer as the spec words it

    One vector at a time: [z = (v - mean) . rotation], one bit per
    component of [z], the bits packed into an integer. *)

Definition entry (a : ndarray2 F) (i j : nat) : F :=
  nth j (nth i (rows a) []) f_zero.

Definition projection (rotation : ndarray2 F) (mean v : list F) : list F :=
  (fun j =>
     fold_left f_add
       ((fun i => f_mul (f_sub (nth i v f_zero) (nth i mean f_zero))
                    (entry rotation i j)) <$> seq 0 (shape0 rotation))
       f_zero) <$> seq 0 (shape1 rotation).

Definition sign_bits (z : list F) : list Z :=
  (fun x => if f_ge0 x then 1 else 0) <$> z.

Definition small_code (rotation : ndarray2 F) (mean v : list F) : Z :=
  bit_vector_to_int (sign_bits (projection rotation mean v)).

Definition quantize (rotation : ndarray2 F) (mean : list F)
    (vectors : list (list F)) : list Z :=
  small_code rotation mean <$> vectors.

(** The pair the spec expects for an element. *)
Definition coded (self : SmallCodeProcess F) (d : Element) : result :=
  (small_code (r self) (m_vec self) (vector d), d).

(** An array whose rows agree with its shape. *)
Definition wf_ndarray {A} (a : ndarray2 A) : Prop :=
  length (rows a) = shape0 a /\ Forall (fun row => length row = shape1 a) (rows a).

(** The shapes the spec's data model asks for: rotation D x B, mean of
    length D. *)
Definition wf_transform (self : SmallCodeProcess F) : Prop :=
  wf_ndarray (r self) /\ length (m_vec self) = shape0 (r self).

(** An element the pipeline is meant for: a true Python object with a
    vector of length D. *)
Definition fits (self : SmallCodeProcess F) (d : Element) : Prop :=
  truth d = true /\ length (vector d) = shape0 (r self).

(** The shape test [np.array] makes. *)
Definition uniform (L : nat) (ds : list Element) : Prop :=
  Forall (fun x => length (vector x) = L) ds.

#[export] Instance uniform_dec L ds : Decision (uniform L ds).
Proof. unfold uniform. apply _. Defined.

(** What NumPy does to one row of a batch whose rows have length [L]:
    the broadcast subtraction, then the product with the rotation. *)
Definition centre (self : SmallCodeProcess F) (L : nat) (row : list F) : list F :=
  if decide (L = length (m_vec self)) then zip_with f_sub row (m_vec self)
  else if decide (length (m_vec self) = 1%nat)
       then (fun x => f_sub x (nth 0 (m_vec self) f_zero)) <$> row
       else (fun c => f_sub (nth 0 row f_zero) c) <$> m_vec self.

(** The row of the product in exact arithmetic. *)
Definition z_row (self : SmallCodeProcess F) (L : nat) (row : list F) : list F :=
  (fun j => inner (centre self L row) (column j (r self))) <$> seq 0 (shape1 (r self)).

(** The rows [np.dot] returns for a batch of vectors [vs] of length [L]:
    one per vector, each with an entry per column of the rotation. *)
Definition z_rows (self : SmallCodeProcess F) (L : nat) (vs : list (list F))
  : list (list F) :=
  (fun i => (fun j => f_dot (centre self L <$> vs) (rows (r self)) i j)
              <$> seq 0 (shape1 (r self))) <$> seq 0 (length vs).

(** The pairs lines 92-93 put for a batch that goes through. *)
Definition batch_pairs (self : SmallCodeProcess F) (ds : list Element)
  : list result :=
  zip_with (fun z d => (bit_vector_to_int (sign_bits z), d))
    (z_rows self (length (default [] (head (vector <$> ds)))) (vector <$> ds)) ds.

(** The width of a batch after the broadcast subtraction, when there is
    one. *)
Definition broadcast_width (L M : nat) : option nat :=
  if decide (L = M) then Some L
  else if decide (M = 1%nat) then Some L
  else if decide (L = 1%nat) then Some M
  else None.

(** The elements a worker takes into its batches from [ps]: those before
    the first item whose truth value is false. *)
Fixpoint accepted (ps : list packet) : list Element :=
  match ps with
  | Some e :: ps' => if truth e then e :: accepted ps' else []
  | _ => []
  end.

(** ** Accounting over system states *)

(** Still inside the receive loop. *)
Definition in_loop (w : wstate) : bool :=
  match w with
  | WGet _ | WPut _ _ KLoop => true
  | _ => false
  end.

(** The elements a worker holds: its batch, or the pairs it has yet to
    put. *)
Definition held (w : wstate) : list Element :=
  match w with
  | WGet d_elems => d_elems
  | WPut o rest _ => snd <$> (o :: rest)
  | _ => []
  end.

(** The pairs a worker has yet to put. *)
Definition pending (w : wstate) : list result :=
  match w with
  | WPut o rest _ => o :: rest
  | _ => []
  end.

Definition to_send (m : mstate) : list Element :=
  match m with
  | MSend rest _ => rest
  | _ => []
  end.

(** The sentinels the caller has yet to put, [n] being the number of
    workers. *)
Definition nones_to_send (n : nat) (m : mstate) : nat :=
  match m with
  | MSend _ _ => n
  | MTerm todo _ => todo
  | _ => 0%nat
  end.

Definition collected (m : mstate) : list result :=
  match m with
  | MCollect _ _ acc | MFinally _ acc | MReturned acc => acc
  | _ => []
  end.

(** The caller has entered the [finally] block. *)
Definition cleaning (m : mstate) : bool :=
  match m with
  | MFinally _ _ | MReturned _ => true
  | _ => false
  end.

(** How many workers the [finally] loop has been through. *)
Definition cleaned (n : nat) (m : mstate) : nat :=
  match m with
  | MFinally j _ => j
  | MReturned _ => n
  | _ => 0%nat
  end.

Definition elems_of (ps : list packet) : list Element := omap id ps.

Definition count_nones (ps : list packet) : nat :=
  sum_list_with (fun p : packet => if p is None then 1%nat else 0%nat) ps.

Definition count_loop (ws : list wstate) : nat :=
  sum_list_with (fun w => if in_loop w then 1%nat else 0%nat) ws.

(** Every element that can still show up in the result, and those that
    already have. *)
Definition stock (st : system) : list Element :=
  to_send (main st) ++ elems_of (items (in_q st)) ++ concat (held <$> workers st)
    ++ (snd <$> items (out_q st)) ++ (snd <$> collected (main st)).

(** Every pair computed so far. *)
Definition pairs (st : system) : list result :=
  concat (pending <$> workers st) ++ items (out_q st) ++ collected (main st).

(** *** A measure that every step decreases *)

Definition wpot (w : wstate) : nat :=
  match w with
  | WGet d_elems => 3 * length d_elems
  | WPut _ rest _ => 2 * S (length rest)
  | _ => 0
  end.

Definition main_pot (n : nat) (m : mstate) : nat :=
  match m with
  | MSend rest _ => 5 * length rest + 6 * n + 4
  | MTerm todo _ => 5 * todo + n + 3
  | MCollect _ _ _ => n + 2
  | MFinally j _ => (n - j) + 1
  | MReturned _ => 0
  end.

Definition measure (st : system) : nat :=
  main_pot (length (workers st)) (main st) + 4 * length (items (in_q st))
    + sum_list_with wpot (workers st) + length (items (out_q st)).

(** ** The steps, one constructor per program point

    [transition self st st'] lists what [step] can do; it is the relation
    the invariants are proved against. *)
Inductive transition (self : SmallCodeProcess F) : system -> system -> Prop :=
  | T_send de rest s mi qi oq ws fd :
      q_full (Build_Queue mi qi) = false ->
      transition self
        {| main := MSend (de :: rest) s; in_q := Build_Queue mi qi; out_q := oq;
           workers := ws; fed := fd |}
        {| main := MSend rest (S s); in_q := Build_Queue mi (qi ++ [Some de]);
           out_q := oq; workers := ws; fed := fd ++ [Some de] |}
  | T_sent s iq oq ws fd :
      transition self
        {| main := MSend [] s; in_q := iq; out_q := oq; workers := ws; fed := fd |}
        {| main := MTerm (length ws) s; in_q := iq; out_q := oq; workers := ws;
           fed := fd |}
  | T_term todo s mi qi oq ws fd :
      q_full (Build_Queue mi qi) = false ->
      transition self
        {| main := MTerm (S todo) s; in_q := Build_Queue mi qi; out_q := oq;
           workers := ws; fed := fd |}
        {| main := MTerm todo s; in_q := Build_Queue mi (qi ++ [None]);
           out_q := oq; workers := ws; fed := fd ++ [None] |}
  | T_termed s iq oq ws fd :
      transition self
        {| main := MTerm 0 s; in_q := iq; out_q := oq; workers := ws; fed := fd |}
        {| main := MCollect 0 s []; in_q := iq; out_q := oq; workers := ws;
           fed := fd |}
  | T_collect i s acc x iq mo qo ws fd :
      (i < s)%nat ->
      transition self
        {| main := MCollect i s acc; in_q := iq; out_q := Build_Queue mo (x :: qo);
           workers := ws; fed := fd |}
        {| main := MCollect (S i) s (acc ++ [x]); in_q := iq;
           out_q := Build_Queue mo qo; workers := ws; fed := fd |}
  | T_collected i s acc iq oq ws fd :
      ~ (i < s)%nat ->
      transition self
        {| main := MCollect i s acc; in_q := iq; out_q := oq; workers := ws;
           fed := fd |}
        {| main := MFinally 0 acc; in_q := iq; out_q := oq; workers := ws;
           fed := fd |}
  | T_finally j acc w iq oq ws fd :
      ws !! j = Some w ->
      transition self
        {| main := MFinally j acc; in_q := iq; out_q := oq; workers := ws;
           fed := fd |}
        {| main := MFinally (S j) acc; in_q := iq; out_q := oq;
           workers := <[j := terminate w]> ws; fed := fd |}
  | T_return j acc iq oq ws fd :
      ws !! j = None ->
      transition self
        {| main := MFinally j acc; in_q := iq; out_q := oq; workers := ws;
           fed := fd |}
        {| main := MReturned acc; in_q := iq; out_q := oq; workers := ws;
           fed := fd |}
  | T_get i d_elems p m mi qi oq ws fd :
      ws !! i = Some (WGet d_elems) ->
      transition self
        {| main := m; in_q := Build_Queue mi (p :: qi); out_q := oq;
           workers := ws; fed := fd |}
        {| main := m; in_q := Build_Queue mi qi; out_q := oq;
           workers := <[i := on_packet self d_elems p]> ws; fed := fd |}
  | T_put i o rest k m iq mo qo ws fd :
      ws !! i = Some (WPut o rest k) ->
      q_full (Build_Queue mo qo) = false ->
      transition self
        {| main := m; in_q := iq; out_q := Build_Queue mo qo; workers := ws;
           fed := fd |}
        {| main := m; in_q := iq; out_q := Build_Queue mo (qo ++ [o]);
           workers := <[i := emit rest k]> ws; fed := fd |}.

(** ** Invariants of the dispatcher *)

(** What holds of every state of a run on [descr_elements] with [procs]
    workers, whatever the elements are. *)
Record base_inv (procs : nat) (descr_elements : list Element) (st : system)
  : Prop := {
  base_in_max : maxsize (in_q st) = 0%nat;
  base_out_max : maxsize (out_q st) = (procs * 2)%nat;
  base_workers : length (workers st) = procs;
  base_out_bound : (length (items (out_q st)) <= procs * 2)%nat;
  base_sentinels :
    (count_loop (workers st)
     <= count_nones (items (in_q st)) + nones_to_send procs (main st))%nat;
  base_fed :
    fed st ++ (Some <$> to_send (main st))
      ++ replicate (nones_to_send procs (main st)) None
    = (Some <$> descr_elements) ++ replicate procs None;
  base_cleaned :
    Forall (fun w => alive w = false)
      (take (cleaned procs (main st)) (workers st))
}.

(** The caller's counters, [n] being the number of elements. *)
Definition counters (n : nat) (m : mstate) : Prop :=
  match m with
  | MSend rest s => (s + length rest = n)%nat
  | MTerm _ s => s = n
  | MCollect i s acc => s = n /\ length acc = i
  | _ => True
  end.

(** Elements are never created: before the [finally] block the stock is
    at most what was given, and strictly less once a worker has raised;
    the [finally] block is entered only with every element collected. *)
Record gen_inv (descr_elements : list Element) (st : system) : Prop := {
  gen_counters : counters (length descr_elements) (main st);
  gen_before :
    cleaning (main st) = false ->
    (length (stock st) <= length descr_elements)%nat
    /\ (WRaised ∈ workers st -> (length (stock st) < length descr_elements)%nat)
    /\ (WTerminated ∉ workers st);
  gen_after :
    cleaning (main st) = true ->
    (WRaised ∉ workers st)
    /\ elems_of (items (in_q st)) = []
    /\ Forall (fun w => held w = []) (workers st)
}.

(** On elements that fit the transform nothing is lost: before the
    [finally] block the stock is the given elements up to order, the input
    queue holds elements and then sentinels, and no worker leaves its loop
    while elements are to come; in the [finally] block the collected pairs
    are the result. *)
Record ok_inv (self : SmallCodeProcess F) (descr_elements : list Element)
    (st : system) : Prop := {
  ok_before :
    cleaning (main st) = false ->
    stock st ≡ₚ descr_elements
    /\ exists es k,
         items (in_q st) = (Some <$> es) ++ replicate k None
         /\ (to_send (main st) <> [] -> k = 0%nat)
         /\ (to_send (main st) ++ es <> [] ->
             Forall (fun w => in_loop w = true) (workers st));
  ok_after :
    cleaning (main st) = true ->
    (snd <$> collected (main st)) ≡ₚ descr_elements
}.

(** ** What the code computes whatever the shapes *)

(** The code lines 88-93 give an element in exact arithmetic when its
    batch goes through: the broadcast is decided by the length of the
    element's own vector. *)
Definition own_code (self : SmallCodeProcess F) (d : Element) : Z :=
  bit_vector_to_int (sign_bits (z_row self (length (vector d)) (vector d))).

Definition own_pair (self : SmallCodeProcess F) (d : Element) : result :=
  (own_code self d, d).

(** The elements whose truth value is true. *)
Definition keep (ds : list Element) : list Element :=
  filter (fun e => truth e = true) ds.

(** The elements that can still reach the result: the truthy ones yet to
    be sent or received, and all those held, queued or collected. *)
Definition live_stock (st : system) : list Element :=
  keep (to_send (main st) ++ elems_of (items (in_q st)))
    ++ concat (held <$> workers st)
    ++ (snd <$> items (out_q st)) ++ (snd <$> collected (main st)).

(** Nothing is made up, whatever the elements are: the live stock is part
    of the truthy elements given, and the [finally] block is entered with
    a pair for every element and an empty output queue. *)
Record sound_inv (self : SmallCodeProcess F) (descr_elements : list Element)
    (st : system) : Prop := {
  sound_stock : live_stock st ⊆+ keep descr_elements;
  sound_done :
    cleaning (main st) = true ->
    length (collected (main st)) = length descr_elements
    /\ items (out_q st) = []
}.

(** In exact arithmetic every pair computed carries the code of its own
    element. *)
Definition codes_inv (self : SmallCodeProcess F) (st : system) : Prop :=
  Forall (fun o => o = own_pair self o.2) (pairs st).

(** ** The driver: lines 40-42 and 178-200 *)

(** Lines 40-42: one element per identifier, in order.  [make_element]
    (lines 34-37) only calls [PostgresDescriptorElement.from_config], which
    is not part of these sources: it is a parameter here. *)
Definition make_elements_from_uuids (make_element : string -> Element)
    (uuids : list string) : list Element :=
  make_element <$> uuids.

(** Lines 178-200, under the schedule [sched].  The identifiers, the
    rotation and the mean are what the three loads give, [cpu_count] is
    [multiprocessing.cpu_count()], [itq_index] is what [load_algo()]
    returns and [add_many_descriptors] is the method of its code index,
    which updates the index in place. *)
Definition add_descriptors_smallcodes {Index : Type}
    (make_element : string -> Element)
    (add_many_descriptors : Index -> list result -> Index)
    (descriptor_uuids : list string) (r0 : ndarray2 F) (mv : list F)
    (cpu_count : nat) (itq_index : Index) (sched : list agent)
  : option (list string * Index) :=
  sc_d_pairs ← async_compute_smallcodes r0 mv
                  (make_elements_from_uuids make_element descriptor_uuids)
                  cpu_count sched;
  Some (descriptor_uuids, add_many_descriptors itq_index sc_d_pairs).

End Model.

Arguments packet : clear implicits.
Arguments wstate : clear implicits.
Arguments mstate : clear implicits.
Arguments system : clear implicits.

(** ** Concrete data, over the integers *)

Definition demo_elem (n : string) (v : list Z) : DescriptorElement Z :=
  {| uuid := n; vector := v; truth := true |}.

Definition demo_a : DescriptorElement Z := demo_elem "a" [1; 1].
Definition demo_b : DescriptorElement Z := demo_elem "b" [0; 0].
Definition demo_c : DescriptorElement Z := demo_elem "c" [5; 9].
Definition demo_d : DescriptorElement Z := demo_elem "d" [2; 0].

(** A vector of length 1. *)
Definition demo_s : DescriptorElement Z := demo_elem "s" [3].

(** A 2 x 2 rotation, a mean of length 2, batches of 2. *)
Definition demo_self : SmallCodeProcess Z :=
  {| r := Build_ndarray2 2 2 [[1; 0]; [0; -1]]; m_vec := [1; 1]; batch := 2 |}.

Definition demo_elems : list (DescriptorElement Z) := [demo_a; demo_b; demo_c].

Definition demo_pairs : list (Z * DescriptorElement Z) :=
  [(3, demo_a); (1, demo_b); (2, demo_c)].

Definition demo_packets : list (packet Z) := (Some <$> demo_elems) ++ [None].

(** An object whose truth value is false. *)
Definition demo_falsy : DescriptorElement Z :=
  {| uuid := "z"; vector := [7; 7]; truth := false |}.

(** Two workers, three elements: worker 0 takes [a], worker 1 takes [b]
    and [c] and puts their pairs first. *)
Definition demo_sched : list agent :=
  [Main; Main; Main; Worker 0; Worker 1; Worker 1; Worker 1; Worker 1;
   Main; Main; Main; Main; Worker 0; Main; Main; Worker 0; Main; Worker 1;
   Main; Main; Main; Main].

Definition demo_final : system Z :=
  Eval vm_compute in
    default (start [] 0) (exec demo_self demo_sched (start demo_elems 2)).

(** One worker, four elements: the worker fills the output queue and
    blocks on it while the caller is still sending. *)
Definition full_elems : list (DescriptorElement Z) := demo_elems ++ [demo_d].

Definition full_sched : list agent :=
  [Main; Main; Main; Main; Worker 0; Worker 0; Worker 0; Worker 0; Worker 0;
   Worker 0].

Definition full_state : system Z :=
  Eval vm_compute in
    default (start [] 0) (exec demo_self full_sched (start full_elems 1)).

(** Vectors of length 3 against a transform for length 2: worker 0 takes
    both elements and raises on the subtraction; worker 1 takes a sentinel
    and returns; the caller waits. *)
Definition bad_elems : list (DescriptorElement Z) :=
  [demo_elem "x" [1; 2; 3]; demo_elem "y" [4; 5; 6]].

Definition bad_sched : list agent := [Main; Main; Worker 0; Worker 0].

Definition bad_sched' : list agent := [Main; Main; Main; Main; Worker 1].

Definition bad_state : system Z :=
  Eval vm_compute in
    default (start [] 0) (exec demo_self bad_sched (start bad_elems 2)).

Definition bad_final : system Z :=
  Eval vm_compute in
    default (start [] 0) (exec demo_self bad_sched' bad_state).

(** No element, one worker that never gets to run. *)
Definition idle_sched : list agent := [Main; Main; Main; Main; Main; Main].

Definition idle_final : system Z :=
  Eval vm_compute in
    default (start [] 0) (exec demo_self idle_sched (start [] 1)).

(** A mean of length 1 against a rotation with 2 rows. *)
Definition short_mean_self : SmallCodeProcess Z :=
  {| r := Build_ndarray2 2 2 [[1; 0]; [0; -1]]; m_vec := [5]; batch := 2 |}.

(** The worker the dispatcher creates: batches of 500. *)
Definition demo_worker : SmallCodeProcess Z :=
  new_worker (r demo_self) (m_vec demo_self).

(** One worker with batches of 500, three elements: the worker holds them
    until it reads the sentinel. *)
Definition solo_sched : list agent :=
  [Main; Worker 0; Main; Worker 0; Main; Worker 0; Main; Main; Worker 0;
   Worker 0; Worker 0; Main; Main; Worker 0; Main; Main; Main; Main; Main].

Definition solo_final : system Z :=
  Eval vm_compute in
    default (start [] 0) (exec demo_worker solo_sched (start demo_elems 1)).

(** A falsy object between two elements: the worker takes it for the
    sentinel. *)
Definition falsy_elems : list (DescriptorElement Z) :=
  [demo_a; demo_falsy; demo_b].

Definition falsy_sched : list agent :=
  [Main; Worker 0; Main; Worker 0; Worker 0; Main; Main; Main; Main; Main].

Definition falsy_final : system Z :=
  Eval vm_compute in
    default (start [] 0) (exec demo_self falsy_sched (start falsy_elems 1)).

(** Three elements and no worker. *)
Definition alone_sched : list agent := [Main; Main; Main; Main; Main].

Definition alone_final : system Z :=
  Eval vm_compute in
    default (start [] 0) (exec demo_self alone_sched (start demo_elems 0)).

(** A store of three vectors under their identifiers, and an index that
    is the list of the pairs added to it. *)
Definition demo_uuids : list string := ["a"; "b"; "c"].

Definition demo_make_element (u : string) : DescriptorElement Z :=
  demo_elem u (if decide (u = "a") then [1; 1]
               else if decide (u = "c") then [5; 9] else [0; 0]).

Definition demo_add_many (index pairs : list (Z * DescriptorElement Z))
  : list (Z * DescriptorElement Z) := index ++ pairs.

(** ** Concrete data, over IEEE binary64 *)

(** The binary64 number nearest to an integer below 2^63 in size. *)
Definition float_of_Z (z : Z) : float :=
  if 0 <=? z then of_uint63 (Uint63.of_Z z)
  else PrimFloat.opp (of_uint63 (Uint63.of_Z (- z))).

(** A 2 x 1 rotation of ones and the mean [1; 0], over the integers and
    over binary64, and the vector [10^16; -10^16]: its projection is -1,
    but [10^16 - 1] is not a binary64 number. *)
Definition exact_self : SmallCodeProcess Z :=
  {| r := Build_ndarray2 2 1 [[1]; [1]]; m_vec := [1; 0]; batch := 500 |}.

Definition exact_h : DescriptorElement Z :=
  demo_elem "h" [10000000000000000; -10000000000000000].

Definition ieee_self : SmallCodeProcess float :=
  {| r := Build_ndarray2 2 1 [[1]; [1]]%float; m_vec := [1; 0]%float;
     batch := 500 |}.

Definition ieee_h : DescriptorElement float :=
  {| uuid := "h"; vector := [1e16; -1e16]%float; truth := true |}.

(** A 3 x 1 rotation of ones and no mean: the three products of [g] add
    up to -1 from the right and to 0 from the left. *)
Definition ones_self : SmallCodeProcess float :=
  {| r := Build_ndarray2 3 1 [[1]; [1]; [1]]%float; m_vec := [0; 0; 0]%float;
     batch := 500 |}.

Definition ieee_g : DescriptorElement float :=
  {| uuid := "g"; vector := [-1; 1e16; -1e16]%float; truth := true |}.

(** ** Tactics *)

Ltac sys_simpl :=
  cbn [main in_q out_q workers fed maxsize items to_send nones_to_send cleaned
       collected cleaning] in *.

(** * Proofs *)

Section Quantizer_facts.
Context {F : Type} `{Scalar F} {DF : Dot F}.

Local Abbreviation Element := (DescriptorElement F).
Local Abbreviation result := (Z * Element)%type.

Implicit Types (self : SmallCodeProcess F) (d : Element) (ds : list Element).

(** ** The batch computation, row by row *)

Lemma set_where_row (row : list F) :
  zip_with (fun old (hit : bool) => if hit then 1 else old)
    (replicate (length row) 0) (f_ge0 <$> row) = sign_bits row.
Proof.
  induction row as [|x row IH]; [done|].
  cbn. f_equal. exact IH.
Qed.

Lemma set_where_rows (zr : list (list F)) (n k : nat) :
  length zr = n ->
  Forall (fun row => length row = k) zr ->
  rows (np_set_where (np_zeros n k) (np_ge0 (Build_ndarray2 n k zr)) 1)
  = sign_bits <$> zr.
Proof.
  intros <-. unfold np_set_where, np_zeros, np_ge0; cbn [rows].
  induction 1 as [|row zr Hrow _ IH]; [done|].
  cbn. f_equal; [|exact IH]. rewrite <- Hrow. apply set_where_row.
Qed.

Lemma zip_with_fmap_self {A B C} (f : B -> A -> C) (g : A -> B) (l : list A) :
  zip_with f (g <$> l) l = (fun x => f (g x) x) <$> l.
Proof. induction l as [|a l IH]; [done|]. cbn. f_equal. exact IH. Qed.

Lemma np_array_spec d ds :
  np_array (vector <$> d :: ds)
  = if decide (uniform (length (vector d)) (d :: ds))
    then Some (Build_ndarray2 (S (length ds)) (length (vector d)) (vector <$> d :: ds))
    else None.
Proof.
  unfold np_array. cbn [fmap list_fmap head default].
  set (L := length (vector d)).
  assert (Is_true (forallb (fun v : list F => (length v =? L)%nat) (vector d :: (vector <$> ds)))
          <-> uniform L (d :: ds)) as Hiff.
  { rewrite forallb_True. change (vector d :: (vector <$> ds)) with (vector <$> d :: ds).
    rewrite Forall_fmap. unfold uniform. apply Forall_proper; [|done].
    intros x. simpl. by rewrite Is_true_true, Nat.eqb_eq. }
  destruct (forallb _ _).
  - rewrite decide_True by (by apply Hiff). by rewrite length_cons, length_fmap.
  - rewrite decide_False; [done|]. intros Hu. by apply Hiff in Hu.
Qed.

Lemma np_sub_spec self (n L : nat) (rs : list (list F)) :
  np_sub (Build_ndarray2 n L rs) (m_vec self)
  = W ← broadcast_width L (length (m_vec self));
    Some (Build_ndarray2 n W (centre self L <$> rs)).
Proof.
  unfold np_sub, broadcast_width, centre; simpl.
  repeat case_decide; simpl; try done; try lia.
Qed.

Lemma length_z_rows self L vs : length (z_rows self L vs) = length vs.
Proof. unfold z_rows. by rewrite length_fmap, length_seq. Qed.

Lemma Forall_length_z_rows self L vs :
  Forall (fun row => length row = shape1 (r self)) (z_rows self L vs).
Proof.
  unfold z_rows. apply Forall_fmap, Forall_forall. intros i _. cbn.
  by rewrite length_fmap, length_seq.
Qed.

(** Lines 88-93 on a non-empty batch: it goes through exactly when the
    vectors have one length [L], [L] broadcasts against the mean, and the
    width after broadcasting is the number of rows of the rotation; the
    pairs then follow the batch, one row of the product each. *)
Lemma compute_batch_cons self d ds :
  compute_batch self (d :: ds)
  = let L := length (vector d) in
    if decide (uniform L (d :: ds)
               /\ broadcast_width L (length (m_vec self)) = Some (shape0 (r self)))
    then Some (batch_pairs self (d :: ds))
    else None.
Proof.
  cbv zeta. unfold compute_batch. rewrite np_array_spec.
  destruct (decide (uniform _ _)) as [Hu|Hu]; cbn [mbind option_bind];
    [|rewrite decide_False; [done|tauto]].
  rewrite np_sub_spec.
  destruct (broadcast_width _ _) as [W|] eqn:HW; cbn [mbind option_bind];
    [|rewrite decide_False; [done|intros [_ ?]; done]].
  unfold np_dot; cbn [shape0 shape1 rows].
  destruct (decide (W = shape0 (r self))) as [->|HWr]; cbn [mbind option_bind];
    [|rewrite decide_False; [done|intros [_ ?]; congruence]].
  rewrite decide_True by done. f_equal. cbn [shape0 shape1].
  unfold batch_pairs. cbn [fmap list_fmap head default].
  change (vector d :: (vector <$> ds)) with (vector <$> d :: ds).
  change (S (length ds)) with (length (d :: ds)).
  rewrite <- (length_fmap vector (d :: ds)).
  rewrite (set_where_rows _ _ (shape1 (r self))).
  - rewrite zip_with_fmap_l. reflexivity.
  - exact (length_z_rows self (length (vector d)) (vector <$> d :: ds)).
  - exact (Forall_length_z_rows self (length (vector d)) (vector <$> d :: ds)).
Qed.

Lemma snd_zip_with_pair {A B C} (g : A -> C) (l : list A) (k : list B) :
  length l = length k ->
  snd <$> zip_with (fun x y => (g x, y)) l k = k.
Proof.
  revert k. induction l as [|a l IH]; intros [|b k] Hlen; simplify_eq/=; [done|].
  f_equal. by apply IH.
Qed.

Lemma snd_batch_pairs self ds : snd <$> batch_pairs self ds = ds.
Proof.
  unfold batch_pairs. apply snd_zip_with_pair.
  by rewrite length_z_rows, length_fmap.
Qed.

Lemma broadcast_width_same (n : nat) : broadcast_width n n = Some n.
Proof. unfold broadcast_width. by rewrite decide_True. Qed.

(** On a batch that fits a well-formed transform, lines 88-93 go through,
    whatever the product gives. *)
Lemma compute_batch_fits self ds :
  wf_transform self ->
  Forall (fun d => length (vector d) = shape0 (r self)) ds ->
  ds <> [] ->
  compute_batch self ds = Some (batch_pairs self ds).
Proof.
  intros Hwf Hds Hne. destruct ds as [|d ds]; [done|].
  rewrite compute_batch_cons. cbv zeta.
  pose proof (Forall_inv Hds) as Hd. simpl in Hd. rewrite Hd.
  rewrite decide_True; [done|].
  split; [exact Hds|]. destruct Hwf as [_ ->]. apply broadcast_width_same.
Qed.

Lemma compute_batch_cons_Some self d ds outs :
  compute_batch self (d :: ds) = Some outs -> outs = batch_pairs self (d :: ds).
Proof.
  rewrite compute_batch_cons. cbv zeta. case_decide; [|done]. congruence.
Qed.

(** Whatever the shapes, a batch that goes through yields one pair per
    element, in the order of the batch. *)
Lemma compute_batch_snd self ds outs :
  compute_batch self ds = Some outs -> snd <$> outs = ds.
Proof.
  destruct ds as [|d ds].
  - unfold compute_batch. case_decide; [|done]. by intros [= <-].
  - intros Hc. rewrite (compute_batch_cons_Some _ _ _ _ Hc).
    apply snd_batch_pairs.
Qed.

Lemma compute_batch_length self ds outs :
  compute_batch self ds = Some outs -> length outs = length ds.
Proof.
  intros Hc. apply compute_batch_snd in Hc. rewrite <- Hc. by rewrite length_fmap.
Qed.

(** ** Bit packing *)

Lemma bit_vector_to_int_snoc (bits : list Z) (b : Z) :
  bit_vector_to_int (bits ++ [b]) = 2 * bit_vector_to_int bits + b.
Proof. unfold bit_vector_to_int. rewrite fold_left_app. simpl. lia. Qed.

Lemma bit_vector_to_int_range (bs : list bool) :
  0 <= bit_vector_to_int (Z.b2z <$> bs) < 2 ^ Z.of_nat (length bs).
Proof.
  induction bs as [|b bs IH] using rev_ind; [done|].
  rewrite fmap_app. change (Z.b2z <$> [b]) with [Z.b2z b].
  rewrite bit_vector_to_int_snoc, length_app. simpl length.
  rewrite Nat2Z.inj_add, Z.pow_add_r by lia.
  change (2 ^ Z.of_nat 1) with 2. destruct b; simpl; lia.
Qed.

Lemma bit_vector_to_int_testbit (bs : list bool) (i : nat) :
  (i < length bs)%nat ->
  Z.testbit (bit_vector_to_int (Z.b2z <$> bs)) (Z.of_nat (length bs - 1 - i))
  = nth i bs false.
Proof.
  revert i. induction bs as [|b bs IH] using rev_ind; intros i Hi;
    [simpl in Hi; lia|].
  rewrite length_app in *. simpl in Hi.
  rewrite fmap_app. change (Z.b2z <$> [b]) with [Z.b2z b].
  rewrite bit_vector_to_int_snoc. simpl length.
  destruct (decide (i = length bs)) as [->|Hne].
  - replace (length bs + 1 - 1 - length bs)%nat with 0%nat by lia.
    rewrite app_nth2 by lia. rewrite Nat.sub_diag. simpl.
    apply Z.testbit_0_r.
  - replace (length bs + 1 - 1 - i)%nat with (S (length bs - 1 - i)) by lia.
    rewrite Nat2Z.inj_succ, Z.testbit_succ_r by lia.
    rewrite app_nth1 by lia. apply IH. lia.
Qed.

Lemma sign_bits_b2z (z : list F) : sign_bits z = Z.b2z <$> (f_ge0 <$> z).
Proof. unfold sign_bits. rewrite <- list_fmap_compose. done. Qed.

End Quantizer_facts.

Section Worker_facts.
Context {F : Type} `{Scalar F} {DF : Dot F}.

Local Abbreviation Element := (DescriptorElement F).
Local Abbreviation result := (Z * Element)%type.

Implicit Types (self : SmallCodeProcess F) (d : Element) (ds : list Element)
  (p : packet F) (ps : list (packet F)) (w : wstate F).

Lemma in_loop_emit (outs : list result) (k : wcont) :
  in_loop (emit outs k) = if k is KLoop then true else false.
Proof. by destruct outs, k. Qed.

Lemma in_loop_flush self ds : in_loop (flush self ds) = false.
Proof.
  unfold flush. destruct ds; [done|].
  destruct (compute_batch _ _); [|done]. by rewrite in_loop_emit.
Qed.

Lemma on_packet_falsy self ds p :
  truthy p = false -> on_packet self ds p = flush self ds.
Proof. destruct p as [e|]; simpl; [|done]. by intros ->. Qed.

Lemma on_packet_truthy self ds p :
  truthy p = true ->
  exists e, p = Some e /\ truth e = true /\
    on_packet self ds p =
      if decide (batch self <= length (ds ++ [e]))%nat then
        match compute_batch self (ds ++ [e]) with
        | Some outs => emit outs KLoop
        | None => WRaised
        end
      else WGet (ds ++ [e]).
Proof.
  destruct p as [e|]; simpl; [|done]. intros He. exists e.
  by rewrite He.
Qed.

Lemma drain_emit (outs : list result) (k : wcont) :
  drain (emit outs k) = (emit [] k, outs).
Proof. by destruct outs, k. Qed.

Lemma feed_not_get self w ps :
  (forall ds, w <> WGet ds) -> feed self w ps = (w, []).
Proof.
  intros Hw. destruct w as [ds|o rest k| | |]; [by destruct (Hw ds)|..]; by destruct ps.
Qed.

Lemma feed_cons self ds p ps :
  feed self (WGet ds) (p :: ps)
  = let '(w', outs) := drain (on_packet self ds p) in
    let '(w'', outs') := feed self w' ps in (w'', outs ++ outs').
Proof. done. Qed.

(** The worker alone: what it has put is, in order, a prefix of what it
    has taken in; nothing is left over once it has returned, and only the
    current batch while it waits for the next packet. *)
Lemma feed_order self ps : forall ds w' outs,
  feed self (WGet ds) ps = (w', outs) ->
  (snd <$> outs) `prefix_of` (ds ++ accepted ps)
  /\ (w' = WExited -> snd <$> outs = ds ++ accepted ps)
  /\ (forall ds', w' = WGet ds' -> (snd <$> outs) ++ ds' = ds ++ accepted ps
                                  /\ Forall (fun p => truthy p = true) ps).
Proof.
  induction ps as [|p ps IH]; intros ds w' outs.
  { simpl. intros [= <- <-]. rewrite app_nil_r. simpl.
    split; [apply prefix_nil|]. split; [done|]. by intros ? [= <-]. }
  rewrite feed_cons.
  destruct (truthy p) eqn:Hp.
  - destruct (on_packet_truthy self ds p Hp) as (e & -> & He & ->).
    cbn [accepted]. rewrite He.
    replace (ds ++ e :: accepted ps) with ((ds ++ [e]) ++ accepted ps)
      by by rewrite <- app_assoc.
    case_decide.
    + destruct (compute_batch _ _) as [outs0|] eqn:Hc.
      * rewrite drain_emit. cbn [emit].
        destruct (feed self (WGet []) ps) as [w'' outs'] eqn:Hf.
        intros [= <- <-]. apply IH in Hf as (Hpre & Hex & Hget).
        apply compute_batch_snd in Hc. rewrite fmap_app, Hc. simpl in *.
        split; [by apply prefix_app|]. split.
        -- intros Hw. by rewrite Hex.
        -- intros ds' Hw. destruct (Hget ds' Hw) as [Heq Hall].
           rewrite <- app_assoc, Heq. split; [done|]. by constructor.
      * cbn [drain]. rewrite feed_not_get by done. intros [= <- <-]. simpl.
        split; [apply prefix_nil|]. split; [done|]. done.
    + simpl. destruct (feed self (WGet (ds ++ [e])) ps) as [w'' outs'] eqn:Hf.
      intros [= <- <-]. apply IH in Hf as (Hpre & Hex & Hget).
      split; [done|]. split; [done|].
      intros ds' Hw. destruct (Hget ds' Hw) as [Heq Hall].
      split; [done|]. by constructor.
  - rewrite (on_packet_falsy _ _ _ Hp).
    assert (accepted (p :: ps) = []) as ->.
    { destruct p as [e|]; [|done]. simpl in *. by rewrite Hp. }
    rewrite app_nil_r. unfold flush.
    destruct ds as [|d ds].
    + cbn [drain]. rewrite feed_not_get by done. intros [= <- <-]. simpl.
      split; [done|]. split; [done|]. done.
    + destruct (compute_batch _ _) as [outs0|] eqn:Hc.
      * rewrite drain_emit. cbn [emit]. rewrite feed_not_get by done.
        intros [= <- <-]. rewrite app_nil_r.
        apply compute_batch_snd in Hc. rewrite Hc.
        split; [done|]. split; [done|]. done.
      * cbn [drain]. rewrite feed_not_get by done. intros [= <- <-]. simpl.
        split; [apply prefix_nil|]. split; [done|]. done.
Qed.

(** The worker alone, on elements that fit, up to the first falsy item:
    it returns, having put a pair for every element, in order. *)
Lemma feed_fits self es : forall ds p rest,
  wf_transform self ->
  Forall (fits self) (ds ++ es) ->
  truthy p = false ->
  exists outs,
    feed self (WGet ds) ((Some <$> es) ++ p :: rest) = (WExited, outs)
    /\ snd <$> outs = ds ++ es.
Proof.
  induction es as [|e es IH]; intros ds p rest Hwf Hfit Hp.
  - rewrite app_nil_r in *. cbn [fmap list_fmap app]. rewrite feed_cons.
    rewrite (on_packet_falsy _ _ _ Hp). unfold flush.
    destruct ds as [|d ds].
    { cbn [drain]. rewrite feed_not_get by done. by exists []. }
    rewrite compute_batch_fits; [|done| |done].
    + rewrite drain_emit. cbn [emit]. rewrite feed_not_get by done.
      exists (batch_pairs self (d :: ds)). rewrite app_nil_r.
      split; [done|apply snd_batch_pairs].
    + eapply Forall_impl; [exact Hfit|]. by intros ? [_ ?].
  - cbn [fmap list_fmap app]. rewrite feed_cons.
    assert (truth e = true) as He.
    { apply Forall_app in Hfit as [_ Hfit]. by destruct (Forall_inv Hfit). }
    cbn [on_packet]. rewrite He.
    replace (ds ++ e :: es) with ((ds ++ [e]) ++ es) in *
      by by rewrite <- app_assoc.
    case_decide.
    + rewrite compute_batch_fits; [|done| |by destruct ds].
      * rewrite drain_emit. cbn [emit].
        destruct (IH [] p rest) as (outs & -> & Hsnd); [done| |done|].
        -- by apply Forall_app in Hfit as [_ ?].
        -- exists (batch_pairs self (ds ++ [e]) ++ outs). split; [done|].
           rewrite fmap_app, snd_batch_pairs, Hsnd. done.
      * apply Forall_app in Hfit as [Hfit _].
        eapply Forall_impl; [exact Hfit|]. by intros ? [_ ?].
    + cbn [drain]. destruct (IH (ds ++ [e]) p rest) as (outs & -> & Hsnd);
        [done|done|done|].
      exists outs. done.
Qed.

End Worker_facts.

Section System_facts.
Context {F : Type} `{Scalar F} {DF : Dot F}.

Local Abbreviation Element := (DescriptorElement F).
Local Abbreviation result := (Z * Element)%type.

Implicit Types (self : SmallCodeProcess F) (d : Element) (ds : list Element)
  (p : packet F) (ps : list (packet F)) (w : wstate F) (ws : list (wstate F))
  (st : system F) (a : agent) (sched : list agent).

Lemma step_transition self a st st' :
  step self a st = Some st' -> transition self st st'.
Proof.
  destruct st as [m [mi qi] [mo qo] ws fd].
  destruct a as [|i]; cbn [step].
  - unfold main_step; cbn [main in_q out_q workers fed].
    destruct m as [[|de rest] s|[|todo] s|i s acc|j acc|acc].
    + intros [= <-]. constructor.
    + unfold q_put. destruct (q_full _) eqn:Hfull; [done|].
      intros [= <-]. by constructor.
    + intros [= <-]. constructor.
    + unfold q_put. destruct (q_full _) eqn:Hfull; [done|].
      intros [= <-]. by constructor.
    + case_decide.
      * unfold q_get; cbn [items maxsize]. destruct qo as [|x qo]; [done|].
        intros [= <-]. by constructor.
      * intros [= <-]. by constructor.
    + destruct (ws !! j) as [w|] eqn:Hj; intros [= <-]; by constructor.
    + done.
  - unfold worker_step; cbn [main in_q out_q workers fed].
    destruct (ws !! i) as [w|] eqn:Hi; [|done]. cbn [mbind option_bind].
    destruct w as [d_elems|o rest k| | |]; try done.
    + unfold q_get; cbn [items maxsize]. destruct qi as [|p qi]; [done|].
      intros [= <-]. by constructor.
    + unfold q_put. destruct (q_full _) eqn:Hfull; [done|].
      intros [= <-]. by constructor.
Qed.

(** ** Sums and concatenations over the worker list *)

Lemma sum_list_with_insert {A} (f : A -> nat) (l : list A) (i : nat) (x y : A) :
  l !! i = Some x ->
  (sum_list_with f (<[i:=y]> l) + f x = sum_list_with f l + f y)%nat.
Proof.
  revert i. induction l as [|z l IH]; intros [|i] Hi; simplify_eq/=; [lia|].
  specialize (IH i Hi). lia.
Qed.

Lemma concat_fmap_insert {A B} (g : A -> list B) (l : list A) (i : nat) (x y : A) :
  l !! i = Some x ->
  concat (g <$> <[i:=y]> l) ++ g x ≡ₚ concat (g <$> l) ++ g y.
Proof.
  revert i. induction l as [|z l IH]; intros [|i] Hi; simplify_eq/=.
  - rewrite <- !app_assoc. rewrite (Permutation_app_comm (g y)).
    rewrite !app_assoc. apply Permutation_app_tail, Permutation_app_comm.
  - rewrite <- !app_assoc. apply Permutation_app_head. by apply IH.
Qed.

Lemma elem_of_insert_inv {A} (l : list A) (i : nat) (x y : A) :
  x ∈ <[i:=y]> l -> x = y \/ x ∈ l.
Proof.
  revert i. induction l as [|z l IH]; intros [|i]; simpl;
    rewrite ?elem_of_cons; try (by right).
  - intros [->|Hx]; [by left|by right; right].
  - intros [->|Hx]; [by right; left|].
    destruct (IH i Hx); [by left|by right; right].
Qed.

(** ** Every step decreases the measure *)

Lemma wpot_emit (outs : list result) (k : wcont) :
  wpot (emit outs k) = (2 * length outs)%nat.
Proof. by destruct outs, k. Qed.

Lemma wpot_flush self ds : (wpot (flush self ds) <= 2 * length ds)%nat.
Proof.
  unfold flush. destruct ds as [|d ds]; [done|].
  destruct (compute_batch _ _) as [outs|] eqn:Hc; [|simpl; lia].
  rewrite wpot_emit. apply compute_batch_length in Hc. lia.
Qed.

Lemma wpot_on_packet self ds p :
  (wpot (on_packet self ds p) <= 3 * length ds + 3)%nat.
Proof.
  destruct (truthy p) eqn:Hp.
  - destruct (on_packet_truthy self ds p Hp) as (e & -> & He & ->).
    case_decide.
    + destruct (compute_batch _ _) as [outs|] eqn:Hc; [|simpl; lia].
      rewrite wpot_emit. apply compute_batch_length in Hc.
      rewrite length_app in Hc. simpl in Hc. lia.
    + simpl. rewrite length_app. simpl. lia.
  - rewrite on_packet_falsy by done. pose proof (wpot_flush self ds). lia.
Qed.

Lemma wpot_terminate w : (wpot (terminate w) <= wpot w)%nat.
Proof. destruct w; simpl; lia. Qed.

Lemma measure_step self st st' :
  transition self st st' -> (measure st' < measure st)%nat.
Proof.
  destruct 1; unfold measure; cbn [main in_q out_q workers fed items main_pot];
    rewrite ?length_app, ?length_insert; cbn [length]; try lia.
  - pose proof (sum_list_with_insert wpot _ _ _ (terminate w) H0) as Hs.
    pose proof (wpot_terminate w). apply lookup_lt_Some in H0. lia.
  - pose proof (sum_list_with_insert wpot _ _ _ (on_packet self d_elems p) H0) as Hs.
    pose proof (wpot_on_packet self d_elems p). simpl in Hs. lia.
  - pose proof (sum_list_with_insert wpot _ _ _ (emit rest k) H0) as Hs.
    rewrite wpot_emit in Hs. simpl in Hs. lia.
Qed.

Lemma count_nones_app ps ps' :
  count_nones (ps ++ ps') = (count_nones ps + count_nones ps')%nat.
Proof. apply sum_list_with_app. Qed.

Lemma count_loop_replicate (n : nat) :
  count_loop (replicate n (WGet [] : wstate F)) = n.
Proof. unfold count_loop. induction n; simpl; [done|]. by rewrite IHn. Qed.

Lemma base_inv_start procs ds : base_inv procs ds (start ds procs).
Proof.
  split; unfold start; sys_simpl;
    rewrite ?length_replicate, ?count_loop_replicate; try done; simpl; lia.
Qed.

Lemma in_loop_terminate w :
  ((if in_loop (terminate w) then 1 else 0) <= (if in_loop w then 1 else 0))%nat.
Proof. destruct w as [| ? ? []| | |]; simpl; lia. Qed.

Lemma alive_terminate w : alive (terminate w) = false.
Proof. by destruct w. Qed.

Lemma in_loop_on_packet_None self ds : in_loop (on_packet self ds None) = false.
Proof. apply in_loop_flush. Qed.

(** A live worker has not been through the [finally] loop. *)
Lemma cleaned_le_alive procs ds st i w :
  base_inv procs ds st -> workers st !! i = Some w -> alive w = true ->
  (cleaned procs (main st) <= i)%nat.
Proof.
  intros Hb Hi Hw. destruct (decide (cleaned procs (main st) <= i)%nat); [done|].
  pose proof (base_cleaned _ _ _ Hb) as Hc.
  rewrite Forall_lookup in Hc.
  specialize (Hc i w). rewrite lookup_take_lt in Hc by lia.
  specialize (Hc Hi). congruence.
Qed.

Lemma q_full_false_bound {A} (n : nat) (l : list A) :
  q_full (Build_Queue n l) = false -> (0 < n)%nat -> (length l < n)%nat.
Proof.
  unfold q_full. cbn [maxsize items].
  destruct (0 <? n)%nat eqn:H0; [|apply Nat.ltb_ge in H0; lia].
  simpl. intros Hle _. apply Nat.leb_gt in Hle. lia.
Qed.

Lemma count_loop_insert ws i w w' :
  ws !! i = Some w ->
  (count_loop (<[i:=w']> ws) + (if in_loop w then 1 else 0)
   = count_loop ws + (if in_loop w' then 1 else 0))%nat.
Proof. apply sum_list_with_insert. Qed.

Lemma base_inv_step self procs ds st st' :
  base_inv procs ds st -> transition self st st' -> base_inv procs ds st'.
Proof.
  intros Hb Ht.
  destruct Ht; pose proof Hb as Hb'; destruct Hb as [Him Hom Hw Hob Hs Hf Hc];
    sys_simpl.
  - (* send *)
    split; sys_simpl; try done.
    + rewrite count_nones_app. cbn. lia.
    + rewrite <- Hf. cbn [fmap list_fmap]. by rewrite <- !app_assoc.
  - (* sent *)
    split; sys_simpl; try done; by rewrite Hw.
  - (* term *)
    split; sys_simpl; try done.
    + rewrite count_nones_app. cbn. lia.
    + rewrite <- Hf. cbn. by rewrite <- !app_assoc.
  - (* termed *)
    split; sys_simpl; done.
  - (* collect *)
    split; sys_simpl; try done. cbn in Hob. lia.
  - (* collected *)
    split; sys_simpl; done.
  - (* finally *)
    split; sys_simpl; try done.
    + by rewrite length_insert.
    + pose proof (count_loop_insert _ _ _ (terminate w) H0) as Hsum.
      pose proof (in_loop_terminate w). lia.
    + apply lookup_lt_Some in H0 as Hlt.
      rewrite (take_S_r _ _ (terminate w)) by by rewrite list_lookup_insert_eq.
      rewrite take_insert_ge by lia.
      apply Forall_app. split; [done|]. constructor; [apply alive_terminate|done].
  - (* return *)
    split; sys_simpl; try done.
    apply lookup_ge_None in H0.
    rewrite take_ge in Hc by lia. rewrite take_ge by lia. done.
  - (* get *)
    pose proof (cleaned_le_alive _ _ _ _ _ Hb' H0 eq_refl) as Hle. sys_simpl.
    split; sys_simpl; try done.
    + by rewrite length_insert.
    + pose proof (count_loop_insert _ _ _ (on_packet self d_elems p) H0) as Hsum.
      cbn [in_loop] in Hsum. unfold count_nones in *. cbn [sum_list_with] in Hs.
      destruct p as [e|].
      * destruct (in_loop (on_packet self d_elems (Some e))); lia.
      * rewrite in_loop_on_packet_None in Hsum. lia.
    + by rewrite take_insert_ge by lia.
  - (* put *)
    pose proof (cleaned_le_alive _ _ _ _ _ Hb' H0 eq_refl) as Hle. sys_simpl.
    split; sys_simpl; try done.
    + by rewrite length_insert.
    + rewrite length_app. cbn [length].
      apply lookup_lt_Some in H0.
      apply q_full_false_bound in H1; lia.
    + pose proof (count_loop_insert _ _ _ (emit rest k) H0) as Hsum.
      rewrite in_loop_emit in Hsum. cbn [in_loop] in Hsum. lia.
    + by rewrite take_insert_ge by lia.
Qed.

(** ** Runs *)

Lemma exec_app self sched sched' st :
  exec self (sched ++ sched') st = st' ← exec self sched st; exec self sched' st'.
Proof.
  revert st. induction sched as [|a sched IH]; intros st; [done|].
  cbn [exec app]. destruct (step self a st) as [st1|]; [|done]. apply IH.
Qed.

Lemma exec_invariant self (I : system F -> Prop) :
  (forall st st', I st -> transition self st st' -> I st') ->
  forall sched st st', I st -> exec self sched st = Some st' -> I st'.
Proof.
  intros Hstep. induction sched as [|a sched IH]; intros st st' Hst.
  - by intros [= <-].
  - cbn [exec]. destruct (step self a st) as [st1|] eqn:Ha; [|done].
    cbn. apply IH. eapply Hstep; [exact Hst|]. by eapply step_transition.
Qed.

Lemma base_inv_exec self procs ds sched st :
  exec self sched (start ds procs) = Some st -> base_inv procs ds st.
Proof.
  apply (exec_invariant self (base_inv procs ds)).
  - intros ???. by apply base_inv_step.
  - apply base_inv_start.
Qed.

Lemma exec_measure self sched : forall st st',
  exec self sched st = Some st' -> (measure st' + length sched <= measure st)%nat.
Proof.
  induction sched as [|a sched IH]; intros st st'.
  - intros [= <-]. simpl. lia.
  - cbn [exec]. destruct (step self a st) as [st1|] eqn:Ha; [|done].
    cbn. intros Hex. apply IH in Hex.
    apply step_transition, measure_step in Ha. simpl. lia.
Qed.

Lemma enabled_nil self st a : enabled self st = [] -> step self a st = None.
Proof.
  intros Hen. destruct (step self a st) as [st'|] eqn:Ha; [|done].
  exfalso. eapply (filter_nil_not_elem_of _ _ a Hen).
  - by rewrite Ha.
  - destruct a as [|i]; [by left|]. right.
    apply list_elem_of_fmap_2, elem_of_seq.
    cbn [step] in Ha. unfold worker_step in Ha.
    destruct (workers st !! i) as [w|] eqn:Hi; [|done].
    apply lookup_lt_Some in Hi. lia.
Qed.

(** The input queue has no bound: putting on it never blocks. *)
Lemma q_put_unbounded {A} (q : Queue A) (x : A) :
  maxsize q = 0%nat -> q_put q x = Some (Build_Queue 0 (items q ++ [x])).
Proof. intros Hq. unfold q_put, q_full. rewrite Hq. done. Qed.

(** A worker that is waiting for a packet is never short of one once the
    caller has put all its sentinels. *)
Lemma waiting_has_packet procs ds st i d_elems :
  base_inv procs ds st ->
  nones_to_send procs (main st) = 0%nat ->
  workers st !! i = Some (WGet d_elems) ->
  items (in_q st) <> [].
Proof.
  intros Hb Hn Hi Hq. pose proof (base_sentinels _ _ _ Hb) as Hs.
  rewrite Hn, Hq in Hs. cbn in Hs.
  pose proof (count_loop_insert _ _ _ WExited Hi) as Hc. cbn in Hc. lia.
Qed.

(** When nothing can move, no worker is left alive. *)
Lemma stuck_no_alive self procs ds st :
  base_inv procs ds st -> enabled self st = [] ->
  Forall (fun w => alive w = false) (workers st).
Proof.
  intros Hb Hen.
  pose proof (enabled_nil self st Main Hen) as Hmain. cbn [step] in Hmain.
  unfold main_step in Hmain.
  destruct (main st) as [[|de rest] s|[|todo] s|i s acc|j acc|acc] eqn:Hm;
    try done.
  - by rewrite q_put_unbounded in Hmain by apply Hb.
  - by rewrite q_put_unbounded in Hmain by apply Hb.
  - case_decide; [|done].
    destruct (q_get (out_q st)) as [[x q]|] eqn:Hget; [done|].
    unfold q_get in Hget. destruct (items (out_q st)) eqn:Hout; [|done].
    apply Forall_lookup. intros k w Hk.
    pose proof (enabled_nil self st (Worker k) Hen) as Hwk. cbn [step] in Hwk.
    unfold worker_step in Hwk. rewrite Hk in Hwk. cbn in Hwk.
    destruct w as [d_elems|o rest kk| | |]; try done.
    + exfalso. eapply (waiting_has_packet procs ds st k); [done| |done|].
      * by rewrite Hm.
      * unfold q_get in Hwk. by destruct (items (in_q st)).
    + exfalso. unfold q_put, q_full in Hwk.
      rewrite Hout in Hwk. rewrite (base_out_max _ _ _ Hb) in Hwk.
      pose proof (base_workers _ _ _ Hb). apply lookup_lt_Some in Hk.
      destruct procs as [|n]; [lia|]. done.
  - by destruct (workers st !! j).
  - pose proof (base_cleaned _ _ _ Hb) as Hc. rewrite Hm in Hc. cbn in Hc.
    rewrite take_ge in Hc; [done|]. by rewrite (base_workers _ _ _ Hb).
Qed.

End System_facts.

Section System_stock.
Context {F : Type} `{Scalar F} {DF : Dot F}.

Local Abbreviation Element := (DescriptorElement F).
Local Abbreviation result := (Z * Element)%type.

Implicit Types (self : SmallCodeProcess F) (d : Element) (ds : list Element)
  (p : packet F) (ps : list (packet F)) (w : wstate F) (ws : list (wstate F))
  (st : system F) (a : agent) (sched : list agent).

Lemma elems_of_app ps ps' : elems_of (ps ++ ps') = elems_of ps ++ elems_of ps'.
Proof. apply omap_app. Qed.

Lemma held_emit (outs : list result) (k : wcont) : held (emit outs k) = snd <$> outs.
Proof. by destruct outs, k. Qed.

Lemma pending_emit (outs : list result) (k : wcont) : pending (emit outs k) = outs.
Proof. by destruct outs, k. Qed.

Lemma emit_not_raised (outs : list result) (k : wcont) :
  emit outs k <> WRaised /\ emit outs k <> WTerminated.
Proof. by destruct outs, k. Qed.

Lemma length_held_insert ws i w w' :
  ws !! i = Some w ->
  (length (concat (held <$> <[i:=w']> ws)) + length (held w)
   = length (concat (held <$> ws)) + length (held w'))%nat.
Proof.
  intros Hi. pose proof (concat_fmap_insert held ws i w w' Hi) as Hp.
  apply Permutation_length in Hp. by rewrite !length_app in Hp.
Qed.

(** What a received packet does to the elements a worker holds. *)
Lemma on_packet_stock self ds p :
  (length (held (on_packet self ds p)) <= length ds + length (elems_of [p]))%nat
  /\ (on_packet self ds p = WRaised ->
      (length (held (on_packet self ds p)) < length ds + length (elems_of [p]))%nat)
  /\ on_packet self ds p <> WTerminated.
Proof.
  destruct (truthy p) eqn:Hp.
  - destruct (on_packet_truthy self ds p Hp) as (e & -> & He & ->).
    change (length (elems_of [Some e])) with 1%nat.
    case_decide.
    + destruct (compute_batch _ _) as [outs|] eqn:Hc.
      * rewrite held_emit, length_fmap. apply compute_batch_length in Hc.
        rewrite length_app in Hc. cbn in Hc.
        destruct (emit_not_raised outs KLoop). cbn. split; [lia|done].
      * cbn. split; [lia|]. split; [lia|done].
    + cbn. rewrite length_app. cbn. split; [lia|done].
  - rewrite on_packet_falsy by done. unfold flush.
    generalize (length (elems_of [p])). intros n.
    destruct ds as [|d ds]; [cbn; split; [lia|done]|].
    destruct (compute_batch _ _) as [outs|] eqn:Hc.
    + rewrite held_emit, length_fmap. apply compute_batch_length in Hc.
      destruct (emit_not_raised outs KExit). split; [lia|done].
    + cbn. split; [lia|]. split; [lia|done].
Qed.

Lemma length_stock st :
  length (stock st)
  = (length (to_send (main st)) + length (elems_of (items (in_q st)))
     + length (concat (held <$> workers st)) + length (items (out_q st))
     + length (collected (main st)))%nat.
Proof. unfold stock. rewrite !length_app, !length_fmap. lia. Qed.

Lemma concat_held_nil ws :
  length (concat (held <$> ws)) = 0%nat -> Forall (fun w => held w = []) ws.
Proof.
  induction ws as [|w ws IH]; [done|]. cbn. rewrite length_app. intros Hl.
  constructor; [apply nil_length_inv; lia|apply IH; lia].
Qed.

Lemma concat_held_replicate (n : nat) :
  concat (held <$> replicate n (WGet [] : wstate F)) = [].
Proof. induction n; [done|]. cbn. done. Qed.

Lemma gen_inv_start ds procs : gen_inv ds (start ds procs).
Proof.
  split; unfold start; cbn [main cleaning counters]; [done| |done].
  intros _. rewrite length_stock.
  cbn [main in_q out_q workers items to_send collected].
  rewrite concat_held_replicate. simpl.
  split; [lia|]. split.
  - intros Hin. apply elem_of_replicate in Hin as [? _]. done.
  - intros Hin. apply elem_of_replicate in Hin as [? _]. done.
Qed.

Lemma held_terminate w : held (terminate w) = [].
Proof. by destruct w. Qed.

Lemma terminate_raised w : terminate w = WRaised -> w = WRaised.
Proof. by destruct w. Qed.

Lemma elems_of_cons p ps : elems_of (p :: ps) = elems_of [p] ++ elems_of ps.
Proof. apply (elems_of_app [p] ps). Qed.

Lemma gen_inv_step self ds st st' :
  gen_inv ds st -> transition self st st' -> gen_inv ds st'.
Proof.
  intros Hg Ht.
  destruct Ht; destruct Hg as [Hc Hb Ha]; sys_simpl; cbn [counters] in Hc.
  - (* send *)
    specialize (Hb eq_refl). rewrite length_stock in Hb. sys_simpl.
    split; sys_simpl; cbn [counters]; [simpl in Hc; lia| |done].
    intros _. rewrite length_stock. sys_simpl.
    rewrite elems_of_app, length_app. cbn [length] in *.
    change (length (elems_of [Some de])) with 1%nat.
    destruct Hb as (Hle & Hr & Ht). split; [lia|]. split; [|done].
    intros Hin. specialize (Hr Hin). lia.
  - (* sent *)
    specialize (Hb eq_refl). rewrite length_stock in Hb. sys_simpl.
    split; sys_simpl; cbn [counters]; [simpl in Hc; lia| |done].
    intros _. by rewrite length_stock.
  - (* term *)
    specialize (Hb eq_refl). rewrite length_stock in Hb. sys_simpl.
    split; sys_simpl; cbn [counters]; [done| |done].
    intros _. rewrite length_stock. sys_simpl.
    rewrite elems_of_app, length_app.
    change (length (elems_of [None])) with 0%nat.
    destruct Hb as (Hle & Hr & Ht). split; [lia|]. split; [|done].
    intros Hin. specialize (Hr Hin). lia.
  - (* termed *)
    specialize (Hb eq_refl). rewrite length_stock in Hb. sys_simpl.
    split; sys_simpl; cbn [counters]; [done| |done].
    intros _. by rewrite length_stock.
  - (* collect *)
    specialize (Hb eq_refl). rewrite length_stock in Hb. sys_simpl.
    destruct Hc as [-> Hacc].
    split; sys_simpl; cbn [counters]; [|intros _|done].
    + split; [done|]. rewrite length_app. cbn. lia.
    + rewrite length_stock. sys_simpl. rewrite length_app. cbn [length] in *.
      destruct Hb as (Hle & Hr & Ht). split; [lia|]. split; [|done].
      intros Hin. specialize (Hr Hin). lia.
  - (* collected *)
    specialize (Hb eq_refl). rewrite length_stock in Hb. sys_simpl.
    destruct Hc as [-> Hacc]. destruct Hb as (Hle & Hr & Ht).
    split; sys_simpl; cbn [counters]; [done|done|intros _].
    split; [|split].
    + intros Hin. specialize (Hr Hin). cbn [length] in Hr. lia.
    + apply nil_length_inv. lia.
    + apply concat_held_nil. lia.
  - (* finally *)
    specialize (Ha eq_refl). destruct Ha as (Hr & Hq & Hh).
    split; sys_simpl; cbn [counters]; [done|done|intros _].
    split; [|split; [done|]].
    + intros Hin. apply elem_of_insert_inv in Hin as [Hin|Hin]; [|done].
      symmetry in Hin. apply terminate_raised in Hin. subst w.
      apply Hr. by eapply list_elem_of_lookup_2.
    + apply Forall_insert; [done|apply held_terminate].
  - (* return *)
    specialize (Ha eq_refl).
    split; sys_simpl; cbn [counters]; [done|done|done].
  - (* get *)
    destruct (on_packet_stock self d_elems p) as (Hle' & Hr' & Ht').
    pose proof (length_held_insert _ _ _ (on_packet self d_elems p) H0) as Hins.
    cbn [held] in Hins.
    split; sys_simpl; [done| |].
    + intros Hcl. specialize (Hb Hcl). rewrite length_stock in *. sys_simpl.
      rewrite elems_of_cons, length_app in Hb.
      destruct Hb as (Hle & Hr & Ht). split; [lia|]. split.
      * intros Hin. apply elem_of_insert_inv in Hin as [Hin|Hin].
        -- symmetry in Hin. specialize (Hr' Hin). lia.
        -- specialize (Hr Hin). lia.
      * intros Hin. apply elem_of_insert_inv in Hin as [Hin|Hin]; [|done].
        by symmetry in Hin.
    + intros Hcl. specialize (Ha Hcl). destruct Ha as (Hr & Hq & Hh).
      rewrite elems_of_cons in Hq. apply app_eq_nil in Hq as [Hp Hq].
      destruct p as [e|]; [done|].
      pose proof (Forall_lookup_1 _ _ _ _ Hh H0) as Hd. cbn [held] in Hd. subst d_elems.
      change (on_packet self [] None) with (WExited : wstate F).
      split; [|split; [done|]].
      * intros Hin. apply elem_of_insert_inv in Hin as [Hin|Hin]; done.
      * by apply Forall_insert.
  - (* put *)
    pose proof (length_held_insert _ _ _ (emit rest k) H0) as Hins.
    rewrite held_emit in Hins. cbn [held] in Hins.
    rewrite !length_fmap in Hins. cbn [length] in Hins.
    destruct (emit_not_raised rest k) as [Hnr Hnt].
    split; sys_simpl; [done| |].
    + intros Hcl. specialize (Hb Hcl). rewrite length_stock in *. sys_simpl.
      rewrite length_app. cbn [length].
      destruct Hb as (Hle & Hr & Ht). split; [lia|]. split.
      * intros Hin. apply elem_of_insert_inv in Hin as [Hin|Hin]; [done|].
        specialize (Hr Hin). lia.
      * intros Hin. apply elem_of_insert_inv in Hin as [Hin|Hin]; done.
    + intros Hcl. specialize (Ha Hcl). destruct Ha as (Hr & Hq & Hh).
      pose proof (Forall_lookup_1 _ _ _ _ Hh H0) as Hd. done.
Qed.

Lemma gen_inv_exec self procs ds sched st :
  exec self sched (start ds procs) = Some st -> gen_inv ds st.
Proof.
  apply (exec_invariant self (gen_inv ds)).
  - intros ???. by apply gen_inv_step.
  - apply gen_inv_start.
Qed.

End System_stock.

Section System_ok.
Context {F : Type} `{Scalar F} {DF : Dot F}.

Local Abbreviation Element := (DescriptorElement F).
Local Abbreviation result := (Z * Element)%type.

Implicit Types (self : SmallCodeProcess F) (d : Element) (ds : list Element)
  (p : packet F) (ps : list (packet F)) (w : wstate F) (ws : list (wstate F))
  (st : system F) (a : agent) (sched : list agent).

Lemma concat_insert_add {A B} (g : A -> list B) (l : list A) (i : nat)
    (x y : A) (extra : list B) :
  l !! i = Some x -> g y ≡ₚ g x ++ extra ->
  concat (g <$> <[i:=y]> l) ≡ₚ concat (g <$> l) ++ extra.
Proof.
  intros Hi Hg. pose proof (concat_fmap_insert g l i x y Hi) as Hp.
  rewrite Hg in Hp. apply (Permutation_app_inv_r (g x)).
  rewrite Hp. solve_Permutation.
Qed.

Lemma concat_insert_remove {A B} (g : A -> list B) (l : list A) (i : nat)
    (x y : A) (gone : list B) :
  l !! i = Some x -> g x ≡ₚ gone ++ g y ->
  concat (g <$> l) ≡ₚ gone ++ concat (g <$> <[i:=y]> l).
Proof.
  intros Hi Hg. pose proof (concat_fmap_insert g l i x y Hi) as Hp.
  rewrite Hg in Hp. apply (Permutation_app_inv_r (g y)).
  rewrite <- Hp. solve_Permutation.
Qed.

Lemma on_packet_fits self ds e :
  wf_transform self -> Forall (fits self) (ds ++ [e]) ->
  on_packet self ds (Some e)
  = if decide (batch self <= length (ds ++ [e]))%nat
    then emit (batch_pairs self (ds ++ [e])) KLoop
    else WGet (ds ++ [e]).
Proof.
  intros Hwf Hfit. cbn [on_packet].
  assert (truth e = true) as ->.
  { apply Forall_app in Hfit as [_ Hfit]. by destruct (Forall_inv Hfit). }
  case_decide; [|done].
  rewrite compute_batch_fits; [done|done| |by destruct ds].
  eapply Forall_impl; [exact Hfit|]. by intros ? [_ ?].
Qed.

Lemma flush_fits self ds :
  wf_transform self -> Forall (fits self) ds ->
  flush self ds = emit (batch_pairs self ds) KExit.
Proof.
  intros Hwf Hfit. unfold flush. destruct ds as [|d ds]; [done|].
  rewrite compute_batch_fits; [done|done| |done].
  eapply Forall_impl; [exact Hfit|]. by intros ? [_ ?].
Qed.

Lemma elem_of_concat_lookup {A B} (g : A -> list B) (l : list A) (i : nat)
    (x : A) (b : B) :
  l !! i = Some x -> b ∈ g x -> b ∈ concat (g <$> l).
Proof.
  revert i. induction l as [|z l IH]; intros [|i] Hi Hb; simplify_eq/=;
    apply elem_of_app; [by left|right; by eapply IH].
Qed.

Lemma held_in_stock st i w :
  workers st !! i = Some w -> held w ⊆ stock st.
Proof.
  intros Hi x Hx. unfold stock. rewrite !elem_of_app. right. right. left.
  by eapply elem_of_concat_lookup.
Qed.

Lemma ok_inv_start self ds procs : ok_inv self ds (start ds procs).
Proof.
  split; unfold start; sys_simpl; [intros _|done].
  unfold stock. sys_simpl.
  rewrite concat_held_replicate. simpl.
  rewrite app_nil_r. split; [done|].
  exists [], 0%nat. split; [done|]. split; [done|].
  intros _. by apply Forall_replicate.
Qed.

Lemma fits_stock self ds st :
  Forall (fits self) ds -> stock st ≡ₚ ds -> Forall (fits self) (stock st).
Proof. intros Hf Hp. by rewrite Hp. Qed.

Lemma ok_inv_step self ds st st' :
  wf_transform self -> Forall (fits self) ds ->
  gen_inv ds st -> ok_inv self ds st -> transition self st st' ->
  ok_inv self ds st'.
Proof.
  intros Hwf Hfit Hg Ho Ht.
  destruct Ht; destruct Ho as [Hb Ha]; destruct Hg as [Hc _ _];
    sys_simpl; cbn [counters] in Hc.
  - (* send *)
    destruct (Hb eq_refl) as (Hperm & es & k & Hq & Hk & Hloop).
    split; sys_simpl; [intros _|done].
    rewrite Hk in Hq by done. cbn [replicate] in Hq. rewrite app_nil_r in Hq.
    subst qi. split.
    + rewrite <- Hperm. unfold stock. sys_simpl. rewrite elems_of_app.
      change (elems_of [Some de]) with [de]. solve_Permutation.
    + exists (es ++ [de]), 0%nat. rewrite fmap_app. cbn [replicate].
      rewrite app_nil_r. split; [done|]. split; [done|].
      intros _. apply Hloop. done.
  - (* sent *)
    destruct (Hb eq_refl) as (Hperm & es & k & Hq & Hk & Hloop).
    split; sys_simpl; [intros _|done].
    split; [done|]. exists es, k. done.
  - (* term *)
    destruct (Hb eq_refl) as (Hperm & es & k & Hq & Hk & Hloop).
    split; sys_simpl; [intros _|done].
    subst qi. split.
    + rewrite <- Hperm. unfold stock. sys_simpl. rewrite elems_of_app.
      change (elems_of [None]) with (@nil Element). by rewrite app_nil_r.
    + exists es, (S k). rewrite replicate_S_end, app_assoc. done.
  - (* termed *)
    destruct (Hb eq_refl) as (Hperm & es & k & Hq & Hk & Hloop).
    split; sys_simpl; [intros _|done].
    split; [done|]. exists es, k. done.
  - (* collect *)
    destruct (Hb eq_refl) as (Hperm & es & k & Hq & Hk & Hloop).
    split; sys_simpl; [intros _|done].
    split.
    + rewrite <- Hperm. unfold stock. sys_simpl. rewrite fmap_app.
      cbn [fmap list_fmap]. solve_Permutation.
    + exists es, k. done.
  - (* collected *)
    destruct (Hb eq_refl) as (Hperm & es & k & Hq & Hk & Hloop).
    destruct Hc as [-> Hacc].
    split; sys_simpl; [done|intros _].
    pose proof (Permutation_length Hperm) as Hlen.
    rewrite length_stock in Hlen. sys_simpl.
    rewrite <- Hperm. unfold stock. sys_simpl.
    assert (length (elems_of (items iq)) = 0%nat) as Hz1 by lia.
    assert (length (concat (held <$> ws)) = 0%nat) as Hz2 by lia.
    assert (length (items oq) = 0%nat) as Hz3 by lia.
    apply nil_length_inv in Hz1, Hz2, Hz3. rewrite Hz1, Hz2, Hz3. done.
  - (* finally *)
    split; sys_simpl; [done|]. exact Ha.
  - (* return *)
    split; sys_simpl; [done|]. exact Ha.
  - (* get *)
    split; sys_simpl; [|exact Ha].
    intros Hcl. destruct (Hb Hcl) as (Hperm & es & k & Hq & Hk & Hloop).
    pose proof (fits_stock _ _ _ Hfit Hperm) as Hfs.
    assert (Forall (fits self) d_elems) as Hd.
    { apply Forall_forall. intros x Hx. rewrite Forall_forall in Hfs.
      apply Hfs. eapply (held_in_stock _ i (WGet d_elems)); [exact H0|done]. }
    destruct es as [|e es].
    + destruct k as [|k]; [done|]. cbn in Hq. injection Hq as -> ->.
      destruct (to_send m) as [|x xs] eqn:Hts; [|by specialize (Hk ltac:(done))].
      change (on_packet self d_elems None) with (flush self d_elems).
      rewrite flush_fits by done.
      split.
      * rewrite <- Hperm. unfold stock. sys_simpl. rewrite Hts.
        rewrite (concat_insert_add held ws i (WGet d_elems) _ [] H0).
        -- change (elems_of (None :: replicate k None))
             with (elems_of (replicate k None : list (packet F))).
           by rewrite app_nil_r.
        -- by rewrite held_emit, snd_batch_pairs, app_nil_r.
      * exists [], k. split; [done|]. split; done.
    + cbn in Hq. injection Hq as -> ->.
      assert (fits self e) as He.
      { rewrite Forall_forall in Hfs. apply Hfs. unfold stock. sys_simpl.
        rewrite !elem_of_app. right. left. cbn. by left. }
      assert (Forall (fits self) (d_elems ++ [e])) as Hde.
      { apply Forall_app. split; [done|by constructor]. }
      rewrite on_packet_fits by done.
      set (w' := if decide (batch self <= length (d_elems ++ [e]))%nat
                 then emit (batch_pairs self (d_elems ++ [e])) KLoop
                 else WGet (d_elems ++ [e])).
      assert (held w' = d_elems ++ [e] /\ in_loop w' = true) as (Hheld & Hin).
      { subst w'. case_decide.
        - rewrite held_emit, snd_batch_pairs, in_loop_emit. done.
        - done. }
      split.
      * rewrite <- Hperm. unfold stock. sys_simpl.
        rewrite (concat_insert_add held ws i (WGet d_elems) _ [e] H0)
          by by rewrite Hheld.
        change (elems_of (Some e :: (Some <$> es) ++ replicate k None))
          with (e :: elems_of ((Some <$> es) ++ replicate k None)).
        solve_Permutation.
      * exists es, k. split; [done|]. split; [done|].
        intros _. apply Forall_insert; [|done].
        apply Hloop. by destruct (to_send m).
  - (* put *)
    split; sys_simpl; [|exact Ha].
    intros Hcl. destruct (Hb Hcl) as (Hperm & es & k0 & Hq & Hk & Hloop).
    split.
    + rewrite <- Hperm. unfold stock. sys_simpl.
      rewrite (concat_insert_remove held ws i (WPut o rest k) (emit rest k) [o.2] H0)
        by by rewrite held_emit.
      rewrite fmap_app. cbn [fmap list_fmap]. solve_Permutation.
    + exists es, k0. split; [done|]. split; [done|].
      intros Hne. apply Forall_insert; [by apply Hloop|].
      rewrite in_loop_emit.
      specialize (Hloop Hne). apply (Forall_lookup_1 _ _ _ _ Hloop) in H0.
      by destruct k.
Qed.

Lemma ok_inv_exec self procs ds sched st :
  wf_transform self -> Forall (fits self) ds ->
  exec self sched (start ds procs) = Some st ->
  ok_inv self ds st.
Proof.
  intros Hwf Hfit Hex.
  enough (gen_inv ds st /\ ok_inv self ds st) by tauto.
  revert Hex.
  apply (exec_invariant self (fun st => gen_inv ds st /\ ok_inv self ds st)).
  - intros st1 st2 [Hg Ho] Ht. split; [by eapply gen_inv_step|by eapply ok_inv_step].
  - split; [apply gen_inv_start|apply ok_inv_start].
Qed.

Lemma concat_held_dead ws :
  Forall (fun w => alive w = false) ws -> concat (held <$> ws) = [].
Proof.
  induction 1 as [|w ws Hw _ IH]; [done|]. cbn. rewrite IH.
  by destruct w.
Qed.

Lemma elems_of_replicate_None (k : nat) :
  elems_of (replicate k None : list (packet F)) = [].
Proof. induction k; [done|]. cbn. done. Qed.

(** ** Progress: on elements that fit, something can always move until
    the call has returned *)
Lemma progress self procs ds st :
  (1 <= procs)%nat ->
  base_inv procs ds st -> gen_inv ds st -> ok_inv self ds st ->
  returned st = None ->
  exists a st', step self a st = Some st'.
Proof.
  intros Hprocs Hb Hg Ho Hret.
  destruct st as [m iq oq ws fd]. unfold returned in Hret.
  pose proof (base_in_max _ _ _ Hb) as Him.
  pose proof (base_out_max _ _ _ Hb) as Hom.
  pose proof (base_workers _ _ _ Hb) as Hws.
  cbn [main in_q out_q workers] in *.
  destruct m as [[|de rest] s|[|todo] s|i s acc|j acc|acc]; try done.
  - exists Main. cbn [step]. unfold main_step. cbn [main]. eauto.
  - exists Main. cbn [step]. unfold main_step. cbn [main in_q].
    rewrite q_put_unbounded by done. eauto.
  - exists Main. cbn [step]. unfold main_step. cbn [main]. eauto.
  - exists Main. cbn [step]. unfold main_step. cbn [main in_q].
    rewrite q_put_unbounded by done. eauto.
  - destruct (decide (i < s)%nat) as [Hlt|Hge].
    2:{ exists Main. cbn [step]. unfold main_step. cbn [main].
        rewrite decide_False by done. eauto. }
    destruct oq as [mo [|x qo]].
    2:{ exists Main. cbn [step]. unfold main_step. cbn [main out_q].
        rewrite decide_True by done. cbn. eauto. }
    destruct (decide (Exists (fun w => alive w = true) ws)) as [Hex|Hno].
    + apply Exists_exists in Hex as (w & Hin & Hal).
      apply list_elem_of_lookup in Hin as [k Hk].
      exists (Worker k). cbn [step]. unfold worker_step. cbn [workers].
      rewrite Hk. cbn [mbind option_bind].
      destruct w as [d_elems|o rest kk| | |]; try done.
      * pose proof (waiting_has_packet _ _ _ k d_elems Hb eq_refl Hk) as Hq.
        cbn [in_q] in *. destruct iq as [mi [|p qi]]; [done|]. cbn. eauto.
      * cbn [out_q maxsize] in *. unfold q_put, q_full. cbn [maxsize items].
        subst mo. destruct procs; [lia|]. cbn. eauto.
    + exfalso. apply not_Exists_Forall in Hno; [|intros ?; apply _].
      assert (Forall (fun w => alive w = false) ws) as Hdead.
      { eapply Forall_impl; [exact Hno|]. intros w Hw. simpl in Hw.
        by destruct (alive w). }
      destruct (ok_before _ _ _ Ho eq_refl)
        as (Hperm & es & k & Hq & _ & Hloop).
      pose proof (gen_counters _ _ Hg) as Hc. cbn [main counters] in Hc.
      destruct Hc as [-> Hacc].
      apply Permutation_length in Hperm. rewrite length_stock in Hperm.
      cbn [main in_q out_q workers to_send collected items] in *.
      rewrite (concat_held_dead _ Hdead) in Hperm. cbn [length] in Hperm.
      destruct es as [|e es].
      * cbn in Hq. rewrite Hq, elems_of_replicate_None in Hperm.
        cbn [length] in Hperm. lia.
      * destruct ws as [|w ws]; [cbn in Hws; lia|].
        specialize (Hloop ltac:(done)).
        apply Forall_inv in Hloop. apply Forall_inv in Hdead.
        by destruct w as [| ? ? []| | |].
  - exists Main. cbn [step]. unfold main_step. cbn [main workers].
    destruct (ws !! j); eauto.
Qed.

(** From any state of a run on elements that fit, some schedule takes the
    call to its return. *)
Lemma can_finish self procs ds :
  (1 <= procs)%nat -> wf_transform self -> Forall (fits self) ds ->
  forall n st,
    (measure st <= n)%nat ->
    base_inv procs ds st -> gen_inv ds st -> ok_inv self ds st ->
    exists sched st' ret,
      exec self sched st = Some st' /\ returned st' = Some ret.
Proof.
  intros Hprocs Hwf Hfit. induction n as [|n IH]; intros st Hn Hb Hg Ho.
  - destruct (returned st) as [ret|] eqn:Hret.
    { exists [], st, ret. done. }
    destruct (progress self procs ds st) as (a & st1 & Ha); try done.
    apply step_transition, measure_step in Ha. lia.
  - destruct (returned st) as [ret|] eqn:Hret.
    { exists [], st, ret. done. }
    destruct (progress self procs ds st) as (a & st1 & Ha); try done.
    pose proof (step_transition _ _ _ _ Ha) as Ht.
    pose proof (measure_step _ _ _ Ht) as Hm.
    destruct (IH st1) as (sched & st' & ret & Hex & Hr).
    + lia.
    + by eapply base_inv_step.
    + by eapply gen_inv_step.
    + by eapply ok_inv_step.
    + exists (a :: sched), st', ret. cbn [exec]. rewrite Ha. done.
Qed.

End System_ok.

(** * Exact arithmetic

    What follows is about the values of the codes.  It holds when the
    arithmetic is exact, and says nothing of IEEE numbers. *)

Section Exact_facts.
Context {F : Type} `{Scalar F} {DF : Dot F}.

Local Abbreviation Element := (DescriptorElement F).
Local Abbreviation result := (Z * Element)%type.

Implicit Types (self : SmallCodeProcess F) (d : Element) (ds : list Element)
  (p : packet F) (ps : list (packet F)) (w : wstate F) (ws : list (wstate F))
  (st : system F) (a : agent) (sched : list agent).

(** ** The order of a sum does not matter *)

Lemma fold_left_add_comm `{!Exact F} (l : list F) (acc x : F) :
  fold_left f_add l (f_add acc x) = f_add (fold_left f_add l acc) x.
Proof.
  revert acc. induction l as [|y l IH]; intros acc; [done|].
  cbn [fold_left]. rewrite <- IH. f_equal.
  rewrite <- !f_add_assoc. f_equal. apply f_add_comm.
Qed.

Lemma fold_left_add_Permutation `{!Exact F} (l l' : list F) :
  l ≡ₚ l' -> forall acc, fold_left f_add l acc = fold_left f_add l' acc.
Proof.
  induction 1 as [|x l l' _ IH|x y l|l l' l'' _ IH1 _ IH2]; intros acc;
    cbn [fold_left].
  - done.
  - apply IH.
  - f_equal. rewrite <- !f_add_assoc. f_equal. apply f_add_comm.
  - by rewrite IH1.
Qed.

(** The inner product is the same in whatever order the products are
    added up. *)
Lemma inner_Permutation `{!Exact F} (xs ys xs' ys' : list F) :
  zip_with f_mul xs ys ≡ₚ zip_with f_mul xs' ys' ->
  inner xs ys = inner xs' ys'.
Proof. intros Hp. by apply fold_left_add_Permutation. Qed.

Lemma inner_from_right_inner `{!Exact F} (xs ys : list F) :
  inner_from_right xs ys = inner xs ys.
Proof.
  unfold inner_from_right, inner.
  induction (zip_with f_mul xs ys) as [|x l IH]; [done|].
  cbn [foldr fold_left]. rewrite IH, fold_left_add_comm.
  apply f_add_comm.
Qed.

(** Both ways of summing give the product. *)
Lemma dot_from_right_exact `{!Exact F} (a b : list (list F)) (i j : nat) :
  dot_from_right a b i j = f_dot a b i j.
Proof. rewrite f_dot_exact. apply inner_from_right_inner. Qed.

(** ** The product, row by row *)

Lemma fmap_seq_nth {A B} (g : A -> B) (l : list A) (a : A) :
  (fun i => g (nth i l a)) <$> seq 0 (length l) = g <$> l.
Proof.
  induction l as [|x l IH]; [done|].
  cbn [length seq fmap list_fmap nth]. f_equal.
  rewrite <- fmap_S_seq, <- list_fmap_compose. exact IH.
Qed.

Lemma z_rows_exact `{!Exact F} self L (vs : list (list F)) :
  z_rows self L vs = z_row self L <$> vs.
Proof.
  unfold z_rows.
  transitivity
    ((fun row : list F =>
        (fun j => inner row (column j (r self))) <$> seq 0 (shape1 (r self)))
       <$> (centre self L <$> vs)).
  - rewrite <- (fmap_seq_nth _ (centre self L <$> vs) []), length_fmap.
    apply list_fmap_ext. intros _ i _. apply list_fmap_ext. intros _ j _.
    apply f_dot_exact.
  - by rewrite <- list_fmap_compose.
Qed.

Lemma batch_pairs_exact `{!Exact F} self d ds :
  batch_pairs self (d :: ds)
  = (fun x => (bit_vector_to_int (sign_bits (z_row self (length (vector d)) (vector x))), x))
      <$> d :: ds.
Proof.
  unfold batch_pairs.
  change (default [] (head (vector <$> d :: ds))) with (vector d).
  rewrite z_rows_exact, <- list_fmap_compose.
  apply (zip_with_fmap_self (fun z x => (bit_vector_to_int (sign_bits z), x))
           (z_row self (length (vector d)) ∘ vector) (d :: ds)).
Qed.

(** A batch that goes through pairs every element with the code of its
    own vector. *)
Lemma compute_batch_own `{!Exact F} self ds outs :
  compute_batch self ds = Some outs -> outs = own_pair self <$> ds.
Proof.
  destruct ds as [|d ds].
  - unfold compute_batch. case_decide; [|done]. by intros [= <-].
  - rewrite compute_batch_cons. cbv zeta. case_decide as Hd; [|done].
    intros [= <-]. rewrite batch_pairs_exact.
    destruct Hd as [Hu _]. apply Forall_fmap_ext_1.
    eapply Forall_impl; [exact Hu|]. intros x Hx. simpl in Hx.
    unfold own_pair, own_code. by rewrite Hx.
Qed.

(** ** Against the spec's quantizer *)

Lemma zip_with3_seq (xs ys zs : list F) (n : nat) :
  length xs = n -> length ys = n -> length zs = n ->
  zip_with f_mul (zip_with f_sub xs ys) zs
  = (fun i => f_mul (f_sub (nth i xs f_zero) (nth i ys f_zero)) (nth i zs f_zero))
      <$> seq 0 n.
Proof.
  revert ys zs n.
  induction xs as [|x xs IH]; intros [|y ys] [|z zs] [|n] Hx Hy Hz;
    simplify_eq/=; [done|].
  f_equal. rewrite <- fmap_S_seq, <- list_fmap_compose. by apply IH.
Qed.

Lemma nth_column (a : ndarray2 F) (i j : nat) :
  nth i (column j a) f_zero = entry a i j.
Proof.
  unfold column, entry. generalize (rows a) as l. intros l. revert i.
  induction l as [|row l IH]; intros [|i]; cbn; try done.
  - by destruct j.
  - by destruct j.
Qed.

Lemma z_row_projection self v :
  wf_transform self ->
  length v = shape0 (r self) ->
  z_row self (shape0 (r self)) v = projection (r self) (m_vec self) v.
Proof.
  intros [[Hrows _] Hmean] Hv. unfold z_row, projection.
  apply list_fmap_ext. intros _ j _.
  unfold inner, centre. rewrite decide_True by done.
  rewrite (zip_with3_seq _ _ _ (shape0 (r self))); try done.
  - f_equal. apply list_fmap_ext. intros _ i _. by rewrite nth_column.
  - unfold column. by rewrite length_fmap.
Qed.

Lemma own_pair_coded self d :
  wf_transform self -> length (vector d) = shape0 (r self) ->
  own_pair self d = coded self d.
Proof.
  intros Hwf Hd. unfold own_pair, own_code, coded, small_code.
  by rewrite Hd, z_row_projection.
Qed.

(** On a batch that fits a well-formed transform, lines 88-93 produce the
    spec's pair for every element, in order. *)
Lemma compute_batch_coded `{!Exact F} self ds :
  wf_transform self ->
  Forall (fun d => length (vector d) = shape0 (r self)) ds ->
  ds <> [] ->
  compute_batch self ds = Some (coded self <$> ds).
Proof.
  intros Hwf Hds Hne.
  pose proof (compute_batch_fits self ds Hwf Hds Hne) as Hc.
  rewrite Hc. f_equal. rewrite (compute_batch_own _ _ _ Hc).
  apply Forall_fmap_ext_1. eapply Forall_impl; [exact Hds|].
  intros x Hx. by apply own_pair_coded.
Qed.

Lemma Forall_own self ds :
  Forall (fun o : result => o = own_pair self o.2) (own_pair self <$> ds).
Proof. apply Forall_fmap, Forall_forall. by intros. Qed.

Lemma fmap_snd_own self (l : list result) ds :
  Forall (fun o => o = own_pair self o.2) l -> snd <$> l = ds ->
  l = own_pair self <$> ds.
Proof.
  intros Hl <-. induction Hl as [|o l Ho _ IH]; [done|].
  cbn. rewrite <- IH. by rewrite <- Ho.
Qed.

Lemma own_coded self (l : list result) :
  wf_transform self ->
  Forall (fits self) (snd <$> l) ->
  Forall (fun o => o = own_pair self o.2) l ->
  Forall (fun o => o = coded self o.2) l.
Proof.
  intros Hwf Hfit Hown. rewrite Forall_fmap in Hfit.
  rewrite Forall_forall in *. intros o Ho.
  rewrite (Hown o Ho) at 1. cbn [snd own_pair].
  destruct (Hfit o Ho) as [_ Hlen]. by apply own_pair_coded.
Qed.

(** ** The worker *)

Lemma pending_on_packet_own `{!Exact F} self ds p :
  Forall (fun o => o = own_pair self o.2) (pending (on_packet self ds p)).
Proof.
  destruct (truthy p) eqn:Hp.
  - destruct (on_packet_truthy self ds p Hp) as (e & -> & He & ->).
    case_decide; [|done].
    destruct (compute_batch _ _) as [outs|] eqn:Hc; [|done].
    rewrite pending_emit, (compute_batch_own _ _ _ Hc). apply Forall_own.
  - rewrite on_packet_falsy by done. unfold flush. destruct ds as [|d ds]; [done|].
    destruct (compute_batch _ _) as [outs|] eqn:Hc; [|done].
    rewrite pending_emit, (compute_batch_own _ _ _ Hc). apply Forall_own.
Qed.

Lemma feed_own `{!Exact F} self ps : forall ds w' outs,
  feed self (WGet ds) ps = (w', outs) ->
  Forall (fun o => o = own_pair self o.2) outs.
Proof.
  induction ps as [|p ps IH]; intros ds w' outs.
  { simpl. by intros [= <- <-]. }
  rewrite feed_cons.
  pose proof (pending_on_packet_own self ds p) as Hp.
  destruct (on_packet self ds p) as [ds1|o rest k| | |]; cbn [drain pending] in *.
  - destruct (feed self (WGet ds1) ps) as [w'' outs'] eqn:Hf.
    intros [= <- <-]. by eapply IH.
  - destruct k; cbn [emit].
    + destruct (feed self (WGet []) ps) as [w'' outs'] eqn:Hf.
      intros [= <- <-]. apply (Forall_app _ (o :: rest) outs').
      split; [done|by eapply IH].
    + rewrite feed_not_get by done. intros [= <- <-]. by rewrite app_nil_r.
  - rewrite feed_not_get by done. by intros [= <- <-].
  - rewrite feed_not_get by done. by intros [= <- <-].
  - rewrite feed_not_get by done. by intros [= <- <-].
Qed.

(** A worker that has returned has put the pair of every element it took
    in, each with the code of its own vector. *)
Lemma run_own `{!Exact F} self ps outs :
  run self ps = (WExited, outs) -> outs = own_pair self <$> accepted ps.
Proof.
  unfold run. intros Hf. apply (fmap_snd_own self); [by eapply feed_own|].
  destruct (feed_order self ps [] WExited outs Hf) as (_ & Hex & _). by apply Hex.
Qed.

(** ** The dispatcher *)

Lemma pending_terminate w : pending (terminate w) = [].
Proof. by destruct w. Qed.

Lemma concat_pending_replicate (n : nat) :
  concat (pending <$> replicate n (WGet [] : wstate F)) = [].
Proof. induction n; [done|]. cbn. done. Qed.

Lemma Forall_concat_insert {A B} (P : B -> Prop) (g : A -> list B) (l : list A)
    (i : nat) (y : A) :
  Forall P (concat (g <$> l)) -> Forall P (g y) ->
  Forall P (concat (g <$> <[i:=y]> l)).
Proof.
  revert i. induction l as [|z l IH]; intros [|i]; cbn; try done.
  - rewrite !Forall_app. tauto.
  - rewrite !Forall_app. intros [? ?] ?. split; [done|by apply IH].
Qed.

Lemma codes_inv_start self ds procs : codes_inv self (start ds procs).
Proof.
  unfold codes_inv, pairs, start. sys_simpl.
  rewrite concat_pending_replicate. done.
Qed.

Lemma codes_inv_step `{!Exact F} self st st' :
  codes_inv self st -> transition self st st' -> codes_inv self st'.
Proof.
  unfold codes_inv. intros Hcodes Ht.
  destruct Ht; unfold pairs in *; sys_simpl; try done.
  - rewrite ?Forall_app, ?Forall_singleton, ?Forall_cons in *. tauto.
  - rewrite !Forall_app in *. destruct Hcodes as (? & ? & ?).
    split; [|done]. apply Forall_concat_insert; [done|].
    by rewrite pending_terminate.
  - rewrite !Forall_app in *. destruct Hcodes as (? & ? & ?).
    split; [|done]. apply Forall_concat_insert; [done|].
    apply pending_on_packet_own.
  - rewrite (concat_insert_remove pending ws i (WPut o rest k) (emit rest k) [o] H0)
      in Hcodes by by rewrite pending_emit.
    rewrite ?Forall_app, ?Forall_singleton, ?Forall_cons in *. tauto.
Qed.

Lemma codes_inv_exec `{!Exact F} self procs ds sched st :
  exec self sched (start ds procs) = Some st -> codes_inv self st.
Proof.
  apply (exec_invariant self (codes_inv self)).
  - intros ???. by apply codes_inv_step.
  - apply codes_inv_start.
Qed.

(** In exact arithmetic the call returns every pair with the code of its
    own element. *)
Lemma returned_own `{!Exact F} self procs ds sched st ret :
  exec self sched (start ds procs) = Some st ->
  returned st = Some ret ->
  ret = own_pair self <$> (snd <$> ret).
Proof.
  intros Hex Hret. pose proof (codes_inv_exec _ _ _ _ _ Hex) as Hc.
  unfold returned in Hret. destruct (main st) as [| | | |acc] eqn:Hm; try done.
  injection Hret as ->. apply (fmap_snd_own self); [|done].
  unfold codes_inv, pairs in Hc. rewrite Hm in Hc. cbn [collected] in Hc.
  rewrite !Forall_app in Hc. tauto.
Qed.

End Exact_facts.

(** The integers are exact. *)
#[export] Instance Z_Exact : Exact Z.
Proof. split; intros; cbn; try lia; reflexivity. Qed.

(** IEEE addition is not associative: binary64 is not exact, whatever
    the product is. *)
Lemma float_not_exact (DF : Dot float) : ~ Exact float.
Proof.
  intros HE.
  pose proof (f_add_assoc 1e16%float (-1e16)%float 1%float) as Ha.
  apply (f_equal (fun x : float => PrimFloat.eqb x 0%float)) in Ha.
  vm_compute in Ha. discriminate.
Qed.

(** * The claims *)

Section Claims.
Context {F : Type} `{Scalar F} {DF : Dot F}.

Local Abbreviation Element := (DescriptorElement F).
Local Abbreviation result := (Z * Element)%type.

Implicit Types (self : SmallCodeProcess F) (d : Element) (ds : list Element)
  (p : packet F) (ps : list (packet F)) (w : wstate F) (ws : list (wstate F))
  (st : system F) (a : agent) (sched : list agent).

Lemma length_projection (rotation : ndarray2 F) (mean v : list F) :
  length (projection rotation mean v) = shape1 rotation.
Proof. unfold projection. by rewrite length_fmap, length_seq. Qed.

Lemma nth_fmap_lt {A B} (f : A -> B) (l : list A) (i : nat) (a : A) (b : B) :
  (i < length l)%nat -> nth i (f <$> l) b = f (nth i l a).
Proof.
  revert i. induction l as [|x l IH]; intros [|i] Hi; simpl in *; try lia; [done|].
  apply IH. lia.
Qed.

Lemma testbit_sign_bits (row : list F) (i : nat) :
  (i < length row)%nat ->
  Z.testbit (bit_vector_to_int (sign_bits row)) (Z.of_nat (length row - 1 - i))
  = f_ge0 (nth i row f_zero).
Proof.
  intros Hi. rewrite sign_bits_b2z.
  pose proof (bit_vector_to_int_testbit (f_ge0 <$> row) i) as Hbit.
  rewrite length_fmap in Hbit. rewrite Hbit by done.
  apply nth_fmap_lt. lia.
Qed.

(** C1 (as the code has it). For a batch of vectors of length D (the
    number of rows of the rotation), with a mean of length D, lines 88-93
    subtract the mean from every vector, take the product [z] of the
    result with the rotation as [np.dot] gives it, and pair every element
    with the packed sign pattern of its row of [z]: bit [i] of the
    pattern, counted from the most significant of the B bits, is 1 exactly
    when the entry found at column [i] is [>= 0].  In exact arithmetic
    that row is [(v - mean) . rotation], a function of the vector. *)
Theorem quantize_sign_pattern self ds :
  wf_transform self ->
  ds <> [] ->
  Forall (fun d => length (vector d) = shape0 (r self)) ds ->
  (exists m c z,
     np_array (vector <$> ds) = Some m
     /\ np_sub m (m_vec self) = Some c
     /\ rows c = (fun v : list F => zip_with f_sub v (m_vec self)) <$> (vector <$> ds)
     /\ np_dot c (r self) = Some z
     /\ length (rows z) = length ds
     /\ Forall (fun row => length row = shape1 (r self)) (rows z)
     /\ compute_batch self ds
        = Some (zip_with (fun row d => (bit_vector_to_int (sign_bits row), d))
                  (rows z) ds)
     /\ forall k row i,
          rows z !! k = Some row -> (i < shape1 (r self))%nat ->
          Z.testbit (bit_vector_to_int (sign_bits row))
            (Z.of_nat (shape1 (r self) - 1 - i))
          = f_ge0 (nth i row f_zero))
  /\ (Exact F ->
      compute_batch self ds
      = Some ((fun d =>
                 (bit_vector_to_int
                    (sign_bits (projection (r self) (m_vec self) (vector d))), d))
                <$> ds)
      /\ forall d i,
           d ∈ ds -> (i < shape1 (r self))%nat ->
           Z.testbit (small_code (r self) (m_vec self) (vector d))
             (Z.of_nat (shape1 (r self) - 1 - i))
           = f_ge0 (nth i (projection (r self) (m_vec self) (vector d)) f_zero)).
Proof.
  intros Hwf Hne Hds. split.
  - pose proof (compute_batch_fits self ds Hwf Hds Hne) as Hc.
    destruct ds as [|d ds]; [done|]. clear Hne.
    pose proof (Forall_inv Hds) as Hd. cbn beta in Hd.
    pose proof Hwf as [_ Hmean].
    set (D := shape0 (r self)) in *.
    exists (Build_ndarray2 (S (length ds)) D (vector <$> d :: ds)),
      (Build_ndarray2 (S (length ds)) D (centre self D <$> (vector <$> d :: ds))),
      (Build_ndarray2 (S (length ds)) (shape1 (r self))
         (z_rows self D (vector <$> d :: ds))).
    split; [|split; [|split; [|split; [|split; [|split; [|split]]]]]].
    + rewrite np_array_spec, Hd. by rewrite decide_True.
    + rewrite np_sub_spec, Hmean. by rewrite broadcast_width_same.
    + cbn [rows]. apply list_fmap_ext. intros _ v _.
      unfold centre. by rewrite decide_True.
    + unfold np_dot. cbn [shape0 shape1 rows]. rewrite decide_True by done.
      do 2 f_equal. unfold z_rows. by rewrite length_fmap.
    + cbn [rows]. by rewrite length_z_rows, length_fmap.
    + cbn [rows]. apply Forall_length_z_rows.
    + rewrite Hc. unfold batch_pairs. cbn [rows].
      change (default [] (head (vector <$> d :: ds))) with (vector d).
      by rewrite Hd.
    + cbn [rows]. intros k row i Hk Hi.
      pose proof (Forall_lookup_1 _ _ _ _ (Forall_length_z_rows self D _) Hk) as Hrow.
      cbn beta in Hrow. rewrite <- Hrow in Hi |- *. by apply testbit_sign_bits.
  - intros HE. split; [by apply compute_batch_coded|].
    intros d i _ Hi. unfold small_code.
    pose proof (length_projection (r self) (m_vec self) (vector d)) as Hlen.
    rewrite <- Hlen in Hi |- *. by apply testbit_sign_bits.
Qed.

(** C5. Every code computed for a batch lies in [0, 2^B - 1], B being the
    number of columns of the rotation. *)
Theorem code_in_range self ds outs :
  compute_batch self ds = Some outs ->
  Forall (fun o : result => 0 <= o.1 <= 2 ^ Z.of_nat (shape1 (r self)) - 1) outs.
Proof.
  destruct ds as [|d ds].
  - unfold compute_batch. case_decide; [|done]. by intros [= <-].
  - intros Hc. rewrite (compute_batch_cons_Some _ _ _ _ Hc).
    unfold batch_pairs.
    eapply Forall_zip_with_fst; [apply Forall_length_z_rows|].
    apply Forall_forall. intros x _ row Hrow. cbn [fst].
    rewrite sign_bits_b2z.
    pose proof (bit_vector_to_int_range (f_ge0 <$> row)) as Hr.
    rewrite length_fmap, Hrow in Hr. lia.
Qed.

(** C6. A batch that is computed yields one pair per element, in the order
    of the batch, the codes depending on the vectors of the batch only
    and, in exact arithmetic, each code on the element's own vector only;
    and what a worker has put is, in order, a prefix of the elements it
    has taken in, all of them once it has returned. *)
Theorem order_is_kept self ds outs ps w' outs' :
  compute_batch self ds = Some outs ->
  run self ps = (w', outs') ->
  (length outs = length ds /\ snd <$> outs = ds
   /\ (exists codes : list (list F) -> list Z,
         outs = zip (codes (vector <$> ds)) ds)
   /\ (Exact F ->
       exists code : list F -> Z, outs = (fun d => (code (vector d), d)) <$> ds))
  /\ (snd <$> outs') `prefix_of` accepted ps
  /\ (w' = WExited -> snd <$> outs' = accepted ps).
Proof.
  intros Hc Hrun. split.
  - split; [by eapply compute_batch_length|]. split; [by eapply compute_batch_snd|].
    split.
    + exists (fun vs =>
                (fun row : list F => bit_vector_to_int (sign_bits row))
                  <$> z_rows self (length (default [] (head vs))) vs).
      destruct ds as [|d ds].
      * unfold compute_batch in Hc. case_decide; [|done]. by injection Hc as <-.
      * rewrite (compute_batch_cons_Some _ _ _ _ Hc). unfold batch_pairs.
        cbn beta. by rewrite zip_with_fmap_l.
    + intros HE. rewrite (compute_batch_own _ _ _ Hc).
      by exists (fun v => bit_vector_to_int (sign_bits (z_row self (length v) v))).
  - unfold run in Hrun.
    destruct (feed_order self ps [] w' outs' Hrun) as (Hpre & Hex & _). done.
Qed.

Lemma fmap_snd_coded self (l : list result) ds :
  Forall (fun o => o = coded self o.2) l -> snd <$> l = ds ->
  l = coded self <$> ds.
Proof.
  intros Hl <-. induction Hl as [|o l Ho _ IH]; [done|].
  cbn. rewrite <- IH. by rewrite <- Ho.
Qed.

(** C4. A worker that receives the sentinel returns at once when its batch
    is empty; otherwise it computes the batch it holds, puts one pair per
    element and then returns.  So a worker fed any number of fitting
    elements and then the sentinel puts a pair for each of them, in order,
    whatever the batch size; in exact arithmetic, the spec's pair. *)
Theorem sentinel_flushes_batch self ds es rest :
  wf_transform self ->
  Forall (fits self) ds ->
  Forall (fits self) es ->
  (on_packet self [] None = WExited
   /\ forall d ds' outs,
        compute_batch self (d :: ds') = Some outs ->
        drain (on_packet self (d :: ds') None) = (WExited, outs)
        /\ snd <$> outs = d :: ds')
  /\ (exists outs,
        on_packet self ds None = emit outs KExit
        /\ drain (on_packet self ds None) = (WExited, outs)
        /\ snd <$> outs = ds
        /\ (Exact F -> outs = coded self <$> ds))
  /\ (exists outs,
        run self ((Some <$> es) ++ None :: rest) = (WExited, outs)
        /\ snd <$> outs = es
        /\ (Exact F -> outs = coded self <$> es)).
Proof.
  intros Hwf Hds Hes.
  assert (on_packet self ds None = emit (batch_pairs self ds) KExit) as Hon.
  { change (on_packet self ds None) with (flush self ds). by apply flush_fits. }
  split; [|split].
  - split; [done|]. intros d ds' outs Hc.
    change (on_packet self (d :: ds') None) with (flush self (d :: ds')).
    unfold flush. rewrite Hc.
    split; [exact (drain_emit outs KExit)|by eapply compute_batch_snd].
  - exists (batch_pairs self ds). split; [done|]. split; [|split].
    + rewrite Hon. exact (drain_emit (batch_pairs self ds) KExit).
    + apply snd_batch_pairs.
    + intros HE. destruct ds as [|d ds]; [done|].
      assert (Forall (fun x => length (vector x) = shape0 (r self)) (d :: ds)) as Hl.
      { eapply Forall_impl; [exact Hds|]. by intros ? [_ ?]. }
      pose proof (compute_batch_fits self _ Hwf Hl ltac:(done)) as Hc.
      rewrite (compute_batch_coded self _ Hwf Hl) in Hc by done. congruence.
  - unfold run.
    destruct (feed_fits self es [] None rest Hwf Hes eq_refl) as (outs & Hf & Hsnd).
    exists outs. split; [done|]. split; [done|].
    intros HE. apply fmap_snd_coded; [|done].
    apply own_coded; [done|by rewrite Hsnd|by eapply feed_own].
Qed.

Lemma drain_flush_not_get self ds ds' : (drain (flush self ds)).1 <> WGet ds'.
Proof.
  unfold flush. destruct ds as [|d ds]; [done|].
  destruct (compute_batch _ _); [|done]. by rewrite drain_emit.
Qed.

Lemma feed_first_falsy self es : forall ds p rest,
  Forall (fun e => truth e = true) es ->
  truthy p = false ->
  feed self (WGet ds) ((Some <$> es) ++ p :: rest)
  = feed self (WGet ds) ((Some <$> es) ++ [None]).
Proof.
  induction es as [|e es IH]; intros ds p rest Hes Hp.
  - cbn [fmap list_fmap app].
    rewrite (feed_cons self ds p rest), (feed_cons self ds None []).
    rewrite (on_packet_falsy _ _ _ Hp).
    change (on_packet self ds None) with (flush self ds).
    pose proof (drain_flush_not_get self ds) as Hng.
    destruct (drain (flush self ds)) as [w1 outs1]. cbn [fst] in Hng.
    rewrite !feed_not_get; [done| |]; intros ds'; apply Hng.
  - cbn [fmap list_fmap app].
    rewrite (feed_cons self ds (Some e) ((Some <$> es) ++ p :: rest)).
    rewrite (feed_cons self ds (Some e) ((Some <$> es) ++ [None])).
    destruct (drain (on_packet self ds (Some e))) as [w1 outs1].
    apply Forall_cons in Hes as [_ Hes].
    destruct w1 as [ds1| | | |]; [by rewrite (IH ds1 p rest)|..];
      by rewrite !feed_not_get.
Qed.

Lemma accepted_first_falsy (es : list Element) (f : Element) ps :
  Forall (fun e => truth e = true) es -> truth f = false ->
  accepted ((Some <$> es) ++ Some f :: ps) = es.
Proof.
  intros Hes Hf. induction Hes as [|e es He _ IH]; cbn.
  - by rewrite Hf.
  - rewrite He. by f_equal.
Qed.

(** C10. The receive loop goes on exactly on a truthy item: a worker that
    is still in its loop after an item has received a truthy one; a truthy
    item goes through the loop body (appended to the batch, the batch
    computed when full, which may raise); a falsy item of any kind is
    handled as the sentinel is, and ends the loop.  So a worker fed truthy
    elements and then a falsy one behaves as if fed the sentinel in its
    place, and puts pairs for elements received before it only. *)
Theorem falsy_item_ends_loop self ds p es f rest :
  Forall (fun e => truth e = true) es ->
  truth f = false ->
  (in_loop (on_packet self ds p) = true -> truthy p = true)
  /\ (truthy p = false ->
      on_packet self ds p = on_packet self ds None
      /\ in_loop (on_packet self ds p) = false)
  /\ (truthy p = true ->
      exists e,
        p = Some e
        /\ on_packet self ds p
           = (if decide (batch self <= length (ds ++ [e]))%nat
              then match compute_batch self (ds ++ [e]) with
                   | Some outs => emit outs KLoop
                   | None => WRaised
                   end
              else WGet (ds ++ [e]))
        /\ (on_packet self ds p = WRaised \/ in_loop (on_packet self ds p) = true))
  /\ run self ((Some <$> es) ++ Some f :: rest) = run self ((Some <$> es) ++ [None])
  /\ (snd <$> (run self ((Some <$> es) ++ Some f :: rest)).2) `prefix_of` es.
Proof.
  intros Hes Hf.
  assert (truthy p = false ->
          on_packet self ds p = on_packet self ds None
          /\ in_loop (on_packet self ds p) = false) as Hfalse.
  { intros Hp. rewrite (on_packet_falsy _ _ _ Hp). split; [done|].
    apply in_loop_flush. }
  split; [|split; [done|split; [|split]]].
  - destruct (truthy p) eqn:Hp; [done|]. destruct (Hfalse eq_refl) as [_ ->]. done.
  - intros Hp. destruct (on_packet_truthy self ds p Hp) as (e & -> & He & Hon).
    exists e. split; [done|]. split; [done|]. rewrite Hon.
    case_decide; [|by right].
    destruct (compute_batch _ _); [right; by rewrite in_loop_emit|by left].
  - unfold run. by apply feed_first_falsy.
  - destruct (run self ((Some <$> es) ++ Some f :: rest)) as [w' outs] eqn:Hrun.
    unfold run in Hrun.
    destruct (feed_order self _ [] w' outs Hrun) as (Hpre & _ & _).
    cbn [snd]. by rewrite (accepted_first_falsy es f rest) in Hpre.
Qed.

(** C9 (as the code has it). A non-empty batch raises exactly when its
    vectors do not all have one length L, or L does not broadcast against
    the length M of the mean to the number R of rows of the rotation: it
    goes through for L = M = R, and also for M = 1 with L = R, and for
    L = 1 with M = R.  A worker whose batch raises is gone: nothing moves
    it again. *)
Theorem batch_raises_iff self d ds :
  (is_Some (compute_batch self (d :: ds))
   <-> uniform (length (vector d)) (d :: ds)
       /\ ((length (vector d) = length (m_vec self)
            /\ length (m_vec self) = shape0 (r self))
           \/ (length (m_vec self) = 1%nat /\ length (vector d) = shape0 (r self))
           \/ (length (vector d) = 1%nat /\ length (m_vec self) = shape0 (r self))))
  /\ (compute_batch self (d :: ds) = None -> flush self (d :: ds) = WRaised)
  /\ (forall i st, workers st !! i = Some WRaised -> step self (Worker i) st = None).
Proof.
  split; [|split].
  - rewrite compute_batch_cons. cbv zeta. unfold broadcast_width.
    case_decide as Hd.
    + split; [intros _|by eauto]. destruct Hd as [Hu Hw]. split; [done|].
      repeat case_decide; simplify_eq; eauto with lia.
    + split; [by intros [? ?]|]. intros [Hu Hw]. exfalso. apply Hd.
      split; [done|]. repeat case_decide; destruct Hw as [[? ?]|[[? ?]|[? ?]]];
        f_equal; lia.
  - intros Hc. unfold flush. by rewrite Hc.
  - intros i st Hi. cbn [step]. unfold worker_step. by rewrite Hi.
Qed.

(** C8. The output queue is created with bound [procs * 2], and at every
    point of a run it holds at most that many pairs; the input queue has
    no bound, so a put on it never blocks and the caller can always move
    while it is sending elements or sentinels. *)
Theorem out_queue_bound self procs ds sched st :
  exec self sched (start ds procs) = Some st ->
  maxsize (out_q st) = (procs * 2)%nat
  /\ (length (items (out_q st)) <= 2 * procs)%nat
  /\ (forall x, q_put (in_q st) x = Some (Build_Queue 0 (items (in_q st) ++ [x])))
  /\ (forall rest s, main st = MSend rest s -> is_Some (step self Main st))
  /\ (forall todo s, main st = MTerm todo s -> is_Some (step self Main st)).
Proof.
  intros Hex. pose proof (base_inv_exec _ _ _ _ _ Hex) as Hb.
  pose proof (base_in_max _ _ _ Hb) as Him.
  split; [apply Hb|]. split; [pose proof (base_out_bound _ _ _ Hb); lia|].
  split; [intros x; by apply q_put_unbounded|].
  cbn [step]. unfold main_step.
  split; [intros rest s ->|intros todo s ->].
  - destruct rest; [done|]. by rewrite q_put_unbounded.
  - destruct todo; [done|]. by rewrite q_put_unbounded.
Qed.

(** C7 (as the code has it). What the caller has put on the input queue,
    followed by what it has yet to put, is always the elements and then
    [procs] sentinels; the sentinels in the queue or to come are never
    fewer than the workers still in their loop, so once the sentinels are
    in, a worker waiting for a packet finds one; and when nothing can move
    any more, no worker is left alive. *)
Theorem sentinels_cover_workers self procs ds sched st :
  exec self sched (start ds procs) = Some st ->
  fed st ++ (Some <$> to_send (main st))
    ++ replicate (nones_to_send procs (main st)) None
  = (Some <$> ds) ++ replicate procs None
  /\ (count_loop (workers st)
      <= count_nones (items (in_q st)) + nones_to_send procs (main st))%nat
  /\ (forall i d_elems,
        nones_to_send procs (main st) = 0%nat ->
        workers st !! i = Some (WGet d_elems) ->
        exists p q, q_get (in_q st) = Some (p, q))
  /\ (enabled self st = [] -> Forall (fun w => alive w = false) (workers st)).
Proof.
  intros Hex. pose proof (base_inv_exec _ _ _ _ _ Hex) as Hb.
  split; [apply Hb|]. split; [apply Hb|]. split.
  - intros i d_elems Hn Hi.
    pose proof (waiting_has_packet _ _ _ _ _ Hb Hn Hi) as Hq.
    unfold q_get. destruct (items (in_q st)); [done|]. eauto.
  - by apply stuck_no_alive with procs ds.
Qed.

Lemma raised_step self st st' :
  transition self st st' -> WRaised ∈ workers st -> WRaised ∈ workers st'.
Proof.
  assert (forall ws i w w', ws !! i = Some w -> (w = WRaised -> w' = WRaised) ->
            WRaised ∈ ws -> WRaised ∈ <[i:=w']> ws) as Hins.
  { intros ws i w w' Hi Hw Hin. apply list_elem_of_lookup in Hin as [j Hj].
    destruct (decide (i = j)) as [->|Hne].
    - rewrite Hi in Hj. injection Hj as ->. rewrite Hw by done.
      apply list_elem_of_lookup. exists j. apply list_lookup_insert_eq.
      by eapply lookup_lt_Some.
    - apply list_elem_of_lookup. exists j. by rewrite list_lookup_insert_ne. }
  destruct 1; cbn [workers]; try done.
  - apply (Hins _ _ _ _ H0). by intros ->.
  - by apply (Hins _ _ _ _ H0).
  - by apply (Hins _ _ _ _ H0).
Qed.

Lemma raised_exec self sched : forall st st',
  exec self sched st = Some st' -> WRaised ∈ workers st -> WRaised ∈ workers st'.
Proof.
  induction sched as [|a sched IH]; intros st st'.
  - by intros [= <-].
  - cbn [exec]. destruct (step self a st) as [st1|] eqn:Ha; [|done]. cbn.
    intros Hex Hin. apply (IH st1); [done|].
    eapply raised_step; [|done]. by eapply step_transition.
Qed.

(** C3 (as the code has it). Once a worker has raised, the caller never
    learns of it: however the run goes on, the call does not return, does
    not enter its [finally] block, terminates no worker, and has collected
    fewer pairs than it waits for. *)
Theorem raised_worker_blocks_caller self procs ds sched st sched' st' :
  exec self sched (start ds procs) = Some st ->
  WRaised ∈ workers st ->
  exec self sched' st = Some st' ->
  returned st' = None
  /\ cleaning (main st') = false
  /\ (WTerminated ∉ workers st')
  /\ (length (collected (main st')) < length ds)%nat.
Proof.
  intros Hex Hin Hex'.
  pose proof (raised_exec _ _ _ _ Hex' Hin) as Hin'.
  assert (exec self (sched ++ sched') (start ds procs) = Some st') as Hall.
  { rewrite exec_app, Hex. done. }
  pose proof (gen_inv_exec _ _ _ _ _ Hall) as Hg.
  destruct (cleaning (main st')) eqn:Hcl.
  { destruct (gen_after _ _ Hg Hcl) as [Hno _]. done. }
  destruct (gen_before _ _ Hg Hcl) as (_ & Hlt & Hnt).
  specialize (Hlt Hin'). rewrite length_stock in Hlt.
  split; [|split; [done|split; [done|lia]]].
  unfold returned. by destruct (main st').
Qed.

(** The dispatcher as written, with its batches of 500: whatever the
    schedule, what the call returns on elements that fit is a pair for
    every element sent, up to order; in exact arithmetic, the spec's. *)
Lemma async_compute_smallcodes_result r0 mean_vec ds procs sched ret :
  wf_transform (new_worker r0 mean_vec) ->
  Forall (fits (new_worker r0 mean_vec)) ds ->
  async_compute_smallcodes r0 mean_vec ds procs sched = Some ret ->
  snd <$> ret ≡ₚ ds
  /\ (Exact F -> Forall (fun o => o = coded (new_worker r0 mean_vec) o.2) ret).
Proof.
  intros Hwf Hfit. unfold async_compute_smallcodes.
  destruct (exec _ sched _) as [st|] eqn:Hex; [|done]. cbn [mbind option_bind].
  intros Hret. pose proof (ok_inv_exec _ _ _ _ _ Hwf Hfit Hex) as Ho.
  assert (snd <$> ret ≡ₚ ds) as Hperm.
  { unfold returned in Hret. destruct (main st) as [| | | |acc] eqn:Hm; try done.
    injection Hret as ->.
    pose proof (ok_after _ _ _ Ho) as Hperm. rewrite Hm in Hperm. by apply Hperm. }
  split; [done|]. intros HE.
  apply own_coded; [done|by rewrite Hperm|].
  rewrite (returned_own _ _ _ _ _ _ Hex Hret). apply Forall_own.
Qed.

(** C2. With at least one worker and elements that fit the transform, a
    run of the dispatcher cannot go on for ever, can always be taken to
    the return of the call, and the list the call returns has one pair per
    element sent: its elements are those sent, each once, up to order,
    whatever the product gives; in exact arithmetic each comes with the
    spec's code. *)
Theorem dispatcher_returns_every_element self procs ds sched st :
  (1 <= procs)%nat ->
  wf_transform self ->
  Forall (fits self) ds ->
  exec self sched (start ds procs) = Some st ->
  (length sched <= measure (start ds procs))%nat
  /\ (exists sched' st' ret,
        exec self sched' st = Some st' /\ returned st' = Some ret)
  /\ (forall ret,
        returned st = Some ret ->
        length ret = length ds
        /\ snd <$> ret ≡ₚ ds
        /\ (uuid <$> (snd <$> ret)) ≡ₚ (uuid <$> ds)
        /\ (Exact F -> Forall (fun o => o = coded self o.2) ret)).
Proof.
  intros Hprocs Hwf Hfit Hex.
  pose proof (base_inv_exec _ _ _ _ _ Hex) as Hb.
  pose proof (gen_inv_exec _ _ _ _ _ Hex) as Hg.
  pose proof (ok_inv_exec _ _ _ _ _ Hwf Hfit Hex) as Ho.
  split; [|split].
  - pose proof (exec_measure _ _ _ _ Hex). lia.
  - by apply (can_finish self procs ds Hprocs Hwf Hfit (measure st)).
  - intros ret Hret.
    assert (snd <$> ret ≡ₚ ds) as Hperm.
    { unfold returned in Hret.
      destruct (main st) as [| | | |acc] eqn:Hm; try done. injection Hret as ->.
      pose proof (ok_after _ _ _ Ho) as Hperm. rewrite Hm in Hperm.
      by apply Hperm. }
    split; [|split; [done|split; [by rewrite Hperm|]]].
    + apply Permutation_length in Hperm. by rewrite length_fmap in Hperm.
    + intros HE. apply own_coded; [done|by rewrite Hperm|].
      rewrite (returned_own _ _ _ _ _ _ Hex Hret). apply Forall_own.
Qed.

End Claims.

(** * Further properties *)

Section Further.
Context {F : Type} `{Scalar F} {DF : Dot F}.

Local Abbreviation Element := (DescriptorElement F).
Local Abbreviation result := (Z * Element)%type.

Implicit Types (self : SmallCodeProcess F) (d : Element) (ds : list Element)
  (p : packet F) (ps : list (packet F)) (w : wstate F) (ws : list (wstate F))
  (st : system F) (a : agent) (sched : list agent).

Lemma keep_app ds ds' : keep (ds ++ ds') = keep ds ++ keep ds'.
Proof. apply filter_app. Qed.

Lemma concat_insert_submseteq {A B} (g : A -> list B) (l : list A) (i : nat)
    (x y : A) (extra : list B) :
  l !! i = Some x -> g y ⊆+ extra ++ g x ->
  concat (g <$> <[i:=y]> l) ⊆+ extra ++ concat (g <$> l).
Proof.
  revert i. induction l as [|z l IH]; intros [|i] Hi Hg; simplify_eq/=.
  - rewrite app_assoc. by apply submseteq_app.
  - specialize (IH i Hi Hg).
    transitivity (g z ++ extra ++ concat (g <$> l)).
    + by apply submseteq_skips_l.
    + apply Permutation_submseteq. solve_Permutation.
Qed.

Lemma keep_packet p e :
  p = Some e -> truth e = true -> keep (elems_of [p]) = [e].
Proof. intros -> He. unfold keep. cbn. by rewrite decide_True. Qed.

(** What a received packet leaves in the hands of a worker: at most its
    batch and the packet, if that is a truthy element. *)
Lemma held_on_packet_sub self ds p :
  held (on_packet self ds p) ⊆+ keep (elems_of [p]) ++ ds.
Proof.
  destruct (truthy p) eqn:Hp.
  - destruct (on_packet_truthy self ds p Hp) as (e & -> & He & ->).
    rewrite (keep_packet (Some e) e eq_refl He).
    assert (ds ++ [e] ⊆+ [e] ++ ds) as Hsub.
    { apply Permutation_submseteq. solve_Permutation. }
    case_decide; [|done].
    destruct (compute_batch _ _) as [outs|] eqn:Hc; [|apply submseteq_nil_l].
    rewrite held_emit. apply compute_batch_snd in Hc. by rewrite Hc.
  - rewrite on_packet_falsy by done. apply submseteq_inserts_l.
    unfold flush. destruct ds as [|d ds]; [done|].
    destruct (compute_batch _ _) as [outs|] eqn:Hc; [|apply submseteq_nil_l].
    rewrite held_emit. apply compute_batch_snd in Hc. by rewrite Hc.
Qed.

Lemma keep_elems_of_snoc_None ps : elems_of (ps ++ [None]) = elems_of ps.
Proof.
  rewrite elems_of_app. change (elems_of [None]) with (@nil Element).
  apply app_nil_r.
Qed.

(** No step adds to the live stock. *)
Lemma live_stock_step self st st' :
  transition self st st' -> live_stock st' ⊆+ live_stock st.
Proof.
  destruct 1; unfold live_stock; sys_simpl.
  - apply Permutation_submseteq.
    rewrite elems_of_app. change (elems_of [Some de]) with [de].
    change (de :: rest) with ([de] ++ rest). rewrite !keep_app.
    solve_Permutation.
  - done.
  - by rewrite keep_elems_of_snoc_None.
  - done.
  - apply Permutation_submseteq. rewrite fmap_app. cbn [fmap list_fmap].
    solve_Permutation.
  - done.
  - apply submseteq_skips_l, submseteq_app; [|done].
    pose proof (concat_insert_submseteq held ws j w (terminate w) [] H0) as Hs.
    apply Hs. rewrite held_terminate. apply submseteq_nil_l.
  - done.
  - pose proof (concat_insert_submseteq held ws i (WGet d_elems)
                  (on_packet self d_elems p) (keep (elems_of [p])) H0
                  (held_on_packet_sub self d_elems p)) as Hs.
    rewrite (elems_of_cons p qi), !keep_app.
    transitivity ((keep (to_send m) ++ keep (elems_of qi))
                    ++ (keep (elems_of [p]) ++ concat (held <$> ws))
                    ++ (snd <$> items oq) ++ (snd <$> collected m)).
    + apply submseteq_skips_l. by apply submseteq_app.
    + apply Permutation_submseteq. solve_Permutation.
  - apply Permutation_submseteq.
    rewrite (concat_insert_remove held ws i (WPut o rest k) (emit rest k) [o.2] H0)
      by by rewrite held_emit.
    rewrite fmap_app. cbn [fmap list_fmap]. solve_Permutation.
Qed.

Lemma sound_inv_start self ds procs : sound_inv self ds (start ds procs).
Proof.
  split; unfold start; sys_simpl; [|done].
  unfold live_stock. sys_simpl.
  rewrite concat_held_replicate. simpl. by rewrite !app_nil_r.
Qed.

Lemma length_live_stock st :
  length (live_stock st)
  = (length (keep (to_send (main st) ++ elems_of (items (in_q st))))
     + length (concat (held <$> workers st)) + length (items (out_q st))
     + length (collected (main st)))%nat.
Proof. unfold live_stock. rewrite !length_app, !length_fmap. lia. Qed.

Lemma sound_inv_step self ds st st' :
  gen_inv ds st -> sound_inv self ds st -> transition self st st' ->
  sound_inv self ds st'.
Proof.
  intros Hg [Hstock Hdone] Ht.
  assert (live_stock st' ⊆+ keep ds) as Hstock'.
  { transitivity (live_stock st); [by eapply live_stock_step|done]. }
  split; [done|]; clear Hstock'.
  destruct Ht; sys_simpl; try done.
  - intros _. pose proof (gen_counters _ _ Hg) as Hc. cbn [main counters] in Hc.
    destruct Hc as [-> Hacc].
    apply submseteq_length in Hstock. rewrite length_live_stock in Hstock.
    sys_simpl. pose proof (length_filter (fun e : Element => truth e = true) ds).
    unfold keep in Hstock at 2.
    split; [lia|]. apply nil_length_inv. lia.
  - intros Hcl. destruct (gen_after _ _ Hg Hcl) as (_ & _ & Hh). sys_simpl.
    pose proof (Forall_lookup_1 _ _ _ _ Hh H0) as Hd. done.
Qed.

Lemma sound_inv_exec self procs ds sched st :
  exec self sched (start ds procs) = Some st -> sound_inv self ds st.
Proof.
  intros Hex.
  enough (gen_inv ds st /\ sound_inv self ds st) by tauto.
  revert Hex.
  apply (exec_invariant self (fun st => gen_inv ds st /\ sound_inv self ds st)).
  - intros st1 st2 [Hg Ho] Ht.
    split; [by eapply gen_inv_step|by eapply sound_inv_step].
  - split; [apply gen_inv_start|apply sound_inv_start].
Qed.

Lemma keep_submseteq ds : keep ds ⊆+ ds.
Proof. apply sublist_submseteq, sublist_filter. Qed.

Lemma keep_all ds :
  length (keep ds) = length ds -> Forall (fun e => truth e = true) ds.
Proof.
  unfold keep. induction ds as [|d ds IH]; [done|].
  rewrite filter_cons. case_decide as Hd; cbn [length]; intros Hl.
  - constructor; [done|]. apply IH. lia.
  - pose proof (length_filter (fun e : Element => truth e = true) ds). lia.
Qed.

(** What a returned list is, whatever the elements, the shapes, the
    number of workers and the schedule. *)
Lemma returned_sound self procs ds sched st ret :
  exec self sched (start ds procs) = Some st ->
  returned st = Some ret ->
  length ret = length ds
  /\ snd <$> ret ≡ₚ ds
  /\ Forall (fun e => truth e = true) ds.
Proof.
  intros Hex Hret. pose proof (sound_inv_exec _ _ _ _ _ Hex) as [Hs Hd].
  unfold returned in Hret. destruct (main st) as [| | | |acc] eqn:Hm; try done.
  injection Hret as ->. destruct (Hd eq_refl) as [Hlen Hout].
  cbn [collected] in *.
  assert (snd <$> ret ⊆+ keep ds) as Hsub.
  { transitivity (live_stock st); [|done]. unfold live_stock. rewrite Hm.
    cbn [collected]. do 3 apply submseteq_inserts_l. done. }
  pose proof (submseteq_length _ _ Hsub) as Hle. rewrite length_fmap in Hle.
  pose proof (length_filter (fun e : Element => truth e = true) ds) as Hf.
  fold (keep ds) in Hf.
  split; [done|]. split.
  - apply submseteq_length_Permutation.
    + transitivity (keep ds); [done|apply keep_submseteq].
    + rewrite length_fmap. lia.
  - apply keep_all. lia.
Qed.

(** X1. Whatever the elements, the shapes, the product, the number of
    workers and the schedule: if the call returns, it returns one pair for
    every element given, each element once; in exact arithmetic each with
    the code of its own vector. *)
Theorem returned_is_everything self procs ds sched st ret :
  exec self sched (start ds procs) = Some st ->
  returned st = Some ret ->
  length ret = length ds
  /\ snd <$> ret ≡ₚ ds
  /\ (Exact F -> ret ≡ₚ own_pair self <$> ds).
Proof.
  intros Hex Hret.
  destruct (returned_sound _ _ _ _ _ _ Hex Hret) as (Hlen & Hperm & _).
  split; [done|]. split; [done|]. intros HE.
  rewrite (returned_own _ _ _ _ _ _ Hex Hret). by rewrite Hperm.
Qed.

(** X2. Two runs on the same elements that both return, return the same
    elements, whatever the schedules, the numbers of workers and the batch
    sizes; in exact arithmetic, with the same rotation and mean, they
    return the same pairs, but for their order. *)
Theorem result_unique_up_to_order self self' procs procs' ds sched sched'
    st st' ret ret' :
  r self = r self' -> m_vec self = m_vec self' ->
  exec self sched (start ds procs) = Some st ->
  exec self' sched' (start ds procs') = Some st' ->
  returned st = Some ret ->
  returned st' = Some ret' ->
  snd <$> ret ≡ₚ snd <$> ret'
  /\ (Exact F -> ret ≡ₚ ret').
Proof.
  intros Hr Hm Hex Hex' Hret Hret'.
  destruct (returned_sound _ _ _ _ _ _ Hex Hret) as (_ & Hperm & _).
  destruct (returned_sound _ _ _ _ _ _ Hex' Hret') as (_ & Hperm' & _).
  split; [by rewrite Hperm, Hperm'|]. intros HE.
  rewrite (returned_own _ _ _ _ _ _ Hex Hret),
    (returned_own _ _ _ _ _ _ Hex' Hret'), Hperm, Hperm'.
  assert (own_pair self = own_pair self') as ->; [|done].
  unfold own_pair, own_code, z_row, centre. by rewrite Hr, Hm.
Qed.

(** X3. One falsy element among those given is enough for the call never
    to return: the worker that receives it takes it for the sentinel and
    drops it, and the caller waits for its pair. *)
Theorem falsy_element_blocks_call self procs ds e sched st :
  e ∈ ds -> truth e = false ->
  exec self sched (start ds procs) = Some st ->
  returned st = None.
Proof.
  intros Hin He Hex. destruct (returned st) as [ret|] eqn:Hret; [|done].
  destruct (returned_sound _ _ _ _ _ _ Hex Hret) as (_ & _ & Hall).
  rewrite Forall_forall in Hall. specialize (Hall e Hin). congruence.
Qed.

Lemma no_worker_exec self ds sched st :
  exec self sched (start ds 0) = Some st ->
  workers st = [] /\ items (out_q st) = [] /\ collected (main st) = [].
Proof.
  apply (exec_invariant self
           (fun st => workers st = [] /\ items (out_q st) = []
                      /\ collected (main st) = [])); [|done].
  intros st1 st2 (Hw & Ho & Hc) Ht. destruct Ht; sys_simpl; subst; try done.
Qed.

(** X4. Without workers ([procs = 0]) the call returns only when there is
    no element: with at least one it sends everything and then waits for
    pairs nobody computes. *)
Theorem no_worker_blocks_call self ds sched st :
  ds <> [] ->
  exec self sched (start ds 0) = Some st ->
  returned st = None.
Proof.
  intros Hne Hex. destruct (returned st) as [ret|] eqn:Hret; [|done].
  destruct (returned_sound _ _ _ _ _ _ Hex Hret) as (Hlen & _).
  destruct (no_worker_exec _ _ _ _ Hex) as (_ & _ & Hc).
  unfold returned in Hret. destruct (main st); try done.
  cbn [collected] in Hc. injection Hret as <-. subst.
  destruct ds; [done|]. done.
Qed.

Lemma filter_nil_Forall {A} (P : A -> Prop) `{!forall x, Decision (P x)}
    (l : list A) :
  Forall (fun x => ~ P x) l -> filter P l = [].
Proof.
  induction 1 as [|x l Hx _ IH]; [done|]. by rewrite filter_cons_False.
Qed.

(** X5. The call returns only after its [finally] block has been through
    every worker: at that point no worker is alive and none has raised,
    the output queue is empty, the input queue holds at most unread
    sentinels, and nothing can move any more. *)
Theorem return_after_cleanup self procs ds sched st ret :
  exec self sched (start ds procs) = Some st ->
  returned st = Some ret ->
  Forall (fun w => alive w = false) (workers st)
  /\ (WRaised ∉ workers st)
  /\ items (out_q st) = []
  /\ elems_of (items (in_q st)) = []
  /\ enabled self st = [].
Proof.
  intros Hex Hret.
  pose proof (base_inv_exec _ _ _ _ _ Hex) as Hb.
  pose proof (gen_inv_exec _ _ _ _ _ Hex) as Hg.
  pose proof (sound_inv_exec _ _ _ _ _ Hex) as Hs.
  unfold returned in Hret. destruct (main st) as [| | | |acc] eqn:Hm; try done.
  assert (Forall (fun w => alive w = false) (workers st)) as Hdead.
  { pose proof (base_cleaned _ _ _ Hb) as Hc. rewrite Hm in Hc. cbn in Hc.
    rewrite take_ge in Hc; [done|]. by rewrite (base_workers _ _ _ Hb). }
  destruct (gen_after _ _ Hg) as (Hnr & Hq & _); [by rewrite Hm|].
  destruct (sound_done _ _ _ Hs) as [_ Hout]; [by rewrite Hm|].
  split; [done|]. split; [done|]. split; [done|]. split; [done|].
  unfold enabled. apply filter_nil_Forall. constructor.
  - cbn [step]. unfold main_step. rewrite Hm. by intros [? ?].
  - apply Forall_fmap, Forall_forall. intros i _. cbn [compose step].
    unfold worker_step. destruct (workers st !! i) as [w|] eqn:Hi; cbn;
      [|by intros [? ?]].
    apply (Forall_lookup_1 _ _ _ _ Hdead) in Hi.
    destruct w; try done; by intros [? ?].
Qed.

Lemma measure_start ds procs :
  measure (start ds procs) = (5 * length ds + 6 * procs + 4)%nat.
Proof.
  unfold measure, start. sys_simpl. cbn [main_pot length].
  rewrite length_replicate.
  assert (sum_list_with wpot (replicate procs (WGet [] : wstate F)) = 0%nat) as ->.
  { induction procs; [done|]. cbn. done. }
  lia.
Qed.

(** X6. No run goes on for ever, whatever the elements: a run on N
    elements with P workers has at most 5 N + 6 P + 4 steps. *)
Theorem runs_are_bounded self procs ds sched st :
  exec self sched (start ds procs) = Some st ->
  (length sched <= 5 * length ds + 6 * procs + 4)%nat.
Proof.
  intros Hex. pose proof (exec_measure _ _ _ _ Hex) as Hm.
  rewrite measure_start in Hm. lia.
Qed.

(** X7. A run can only end in one of two ways: when nothing can move any
    more, either the call has returned, or the caller is waiting in its
    collection loop for a pair, with the output queue empty and no worker
    left alive to fill it. *)
Theorem quiescent_dichotomy self procs ds sched st :
  exec self sched (start ds procs) = Some st ->
  enabled self st = [] ->
  (exists ret, returned st = Some ret)
  \/ (exists i s acc,
        main st = MCollect i s acc /\ (i < s)%nat
        /\ items (out_q st) = []
        /\ Forall (fun w => alive w = false) (workers st)).
Proof.
  intros Hex Hen. pose proof (base_inv_exec _ _ _ _ _ Hex) as Hb.
  pose proof (stuck_no_alive _ _ _ _ Hb Hen) as Hdead.
  pose proof (enabled_nil self st Main Hen) as Hmain. cbn [step] in Hmain.
  unfold main_step, returned in *.
  destruct (main st) as [[|de rest] s|[|todo] s|i s acc|j acc|acc] eqn:Hm;
    try done.
  - by rewrite q_put_unbounded in Hmain by apply Hb.
  - by rewrite q_put_unbounded in Hmain by apply Hb.
  - right. case_decide; [|done]. exists i, s, acc.
    split; [done|]. split; [done|]. split; [|done].
    unfold q_get in Hmain. by destruct (items (out_q st)).
  - by destruct (workers st !! j).
  - left. eauto.
Qed.

Lemma compute_batch_Some_iff self d ds :
  is_Some (compute_batch self (d :: ds))
  <-> uniform (length (vector d)) (d :: ds)
      /\ broadcast_width (length (vector d)) (length (m_vec self))
         = Some (shape0 (r self)).
Proof.
  rewrite compute_batch_cons. cbv zeta. case_decide; [by eauto|].
  split; [by intros [? ?]|done].
Qed.

(** X8. A batch made of two non-empty parts goes through exactly when
    both parts do and their vectors have one length; its elements are
    then those of the first part followed by those of the second, and in
    exact arithmetic so are its pairs: batching does not change codes
    there. *)
Theorem batch_split self d1 t1 d2 t2 :
  (is_Some (compute_batch self ((d1 :: t1) ++ d2 :: t2))
   <-> is_Some (compute_batch self (d1 :: t1))
       /\ is_Some (compute_batch self (d2 :: t2))
       /\ length (vector d1) = length (vector d2))
  /\ (forall outs,
        compute_batch self ((d1 :: t1) ++ d2 :: t2) = Some outs ->
        exists o1 o2,
          compute_batch self (d1 :: t1) = Some o1
          /\ compute_batch self (d2 :: t2) = Some o2
          /\ snd <$> outs = snd <$> (o1 ++ o2)
          /\ (Exact F -> outs = o1 ++ o2)).
Proof.
  assert (is_Some (compute_batch self ((d1 :: t1) ++ d2 :: t2))
          <-> is_Some (compute_batch self (d1 :: t1))
              /\ is_Some (compute_batch self (d2 :: t2))
              /\ length (vector d1) = length (vector d2)) as Hiff.
  { change ((d1 :: t1) ++ d2 :: t2) with (d1 :: (t1 ++ d2 :: t2)).
    rewrite !compute_batch_Some_iff. unfold uniform.
    change (d1 :: t1 ++ d2 :: t2) with ((d1 :: t1) ++ d2 :: t2).
    rewrite Forall_app. split.
    - intros [[Hu1 Hu2] Hw]. pose proof (Forall_inv Hu2) as Hd2. simpl in Hd2.
      rewrite Hd2. done.
    - intros ([Hu1 Hw1] & [Hu2 Hw2] & Hl). rewrite Hl in Hu1 |- *. done. }
  split; [done|]. intros outs Hc.
  destruct (proj1 Hiff) as ([o1 Ho1] & [o2 Ho2] & _); [by eauto|].
  exists o1, o2. split; [done|]. split; [done|]. split.
  - rewrite fmap_app, (compute_batch_snd _ _ _ Hc), (compute_batch_snd _ _ _ Ho1),
      (compute_batch_snd _ _ _ Ho2). done.
  - intros HE.
    rewrite (compute_batch_own _ _ _ Hc), (compute_batch_own _ _ _ Ho1),
      (compute_batch_own _ _ _ Ho2).
    apply fmap_app.
Qed.

(** X9. A worker that has returned has put, in order, a pair for every
    element it received before the first falsy item, whatever its batch
    size; in exact arithmetic each pair has the code of its own vector,
    so two workers with the same transform that both return on the same
    packets have put the same pairs. *)
Theorem batch_size_irrelevant self self' ps outs outs' :
  r self = r self' -> m_vec self = m_vec self' ->
  run self ps = (WExited, outs) ->
  run self' ps = (WExited, outs') ->
  snd <$> outs = accepted ps
  /\ snd <$> outs' = snd <$> outs
  /\ (Exact F -> outs = own_pair self <$> accepted ps /\ outs' = outs).
Proof.
  intros Hr Hm Hrun Hrun'.
  assert (forall s o, run s ps = (WExited, o) -> snd <$> o = accepted ps) as Hone.
  { intros s o Hf. unfold run in Hf.
    destruct (feed_order s ps [] WExited o Hf) as (_ & Hex & _). by apply Hex. }
  split; [by eapply Hone|]. split; [by rewrite (Hone _ _ Hrun), (Hone _ _ Hrun')|].
  intros HE. rewrite (run_own _ _ _ Hrun), (run_own _ _ _ Hrun'). split; [done|].
  assert (own_pair self' = own_pair self) as ->; [|done].
  unfold own_pair, own_code, z_row, centre. by rewrite Hr, Hm.
Qed.

(** X10. A worker puts nothing before its batch is full: fed truthy
    elements that do not fill the batch, it holds them all, in order, and
    waits for the next packet. *)
Theorem nothing_before_full_batch self ds es :
  Forall (fun e => truth e = true) es ->
  (length (ds ++ es) < batch self)%nat ->
  feed self (WGet ds) (Some <$> es) = (WGet (ds ++ es), []).
Proof.
  revert ds. induction es as [|e es IH]; intros ds Hes Hlen.
  - by rewrite app_nil_r.
  - apply Forall_cons in Hes as [He Hes]. rewrite fmap_cons.
    rewrite (feed_cons self ds (Some e) (Some <$> es)). cbn [on_packet]. rewrite He.
    rewrite length_app in Hlen. cbn [length] in Hlen.
    rewrite decide_False by (rewrite length_app; cbn [length]; lia).
    cbn [drain]. rewrite (IH (ds ++ [e])); [|done|].
    + by rewrite <- app_assoc.
    + rewrite !length_app. cbn [length]. lia.
Qed.

(** X11. The driver hands the index one pair per identifier loaded: if
    [add_descriptors_smallcodes] returns, it returns the identifiers as
    loaded and the index after one [add_many_descriptors] of pairs whose
    elements are exactly the elements made from those identifiers, each
    once; in exact arithmetic each with the code of its own vector. *)
Theorem index_gets_every_uuid {Index : Type} (make_element : string -> Element)
    (add_many_descriptors : Index -> list result -> Index)
    descriptor_uuids r0 mv cpu_count itq_index sched uuids' index' :
  add_descriptors_smallcodes make_element add_many_descriptors descriptor_uuids
    r0 mv cpu_count itq_index sched = Some (uuids', index') ->
  uuids' = descriptor_uuids
  /\ exists sc_d_pairs,
       index' = add_many_descriptors itq_index sc_d_pairs
       /\ length sc_d_pairs = length descriptor_uuids
       /\ snd <$> sc_d_pairs ≡ₚ make_element <$> descriptor_uuids
       /\ (Exact F ->
           Forall (fun o => o = own_pair (new_worker r0 mv) o.2) sc_d_pairs).
Proof.
  unfold add_descriptors_smallcodes, async_compute_smallcodes.
  destruct (exec _ sched _) as [st|] eqn:Hex; [|done]. cbn [mbind option_bind].
  destruct (returned st) as [ret|] eqn:Hret; [|done]. cbn [mbind option_bind].
  intros [= <- <-]. split; [done|]. exists ret. split; [done|].
  destruct (returned_sound _ _ _ _ _ _ Hex Hret) as (Hlen & Hperm & _).
  unfold make_elements_from_uuids in *. rewrite length_fmap in Hlen.
  split; [done|]. split; [done|]. intros HE.
  rewrite (returned_own _ _ _ _ _ _ Hex Hret). apply Forall_own.
Qed.

(** X12. With at least one processor, a well-formed transform and, for
    every identifier, a truthy element with a vector of length D, some
    schedule takes the driver to its return. *)
Theorem driver_can_complete {Index : Type} (make_element : string -> Element)
    (add_many_descriptors : Index -> list result -> Index)
    descriptor_uuids r0 mv cpu_count itq_index :
  (1 <= cpu_count)%nat ->
  wf_transform (new_worker r0 mv) ->
  Forall (fun u => fits (new_worker r0 mv) (make_element u)) descriptor_uuids ->
  exists sched index',
    add_descriptors_smallcodes make_element add_many_descriptors descriptor_uuids
      r0 mv cpu_count itq_index sched = Some (descriptor_uuids, index').
Proof.
  intros Hcpu Hwf Hu.
  assert (Forall (fits (new_worker r0 mv))
            (make_elements_from_uuids make_element descriptor_uuids)) as Hfit
    by by apply Forall_fmap.
  set (ds := make_elements_from_uuids make_element descriptor_uuids) in *.
  destruct (can_finish (new_worker r0 mv) cpu_count ds Hcpu Hwf Hfit
              (measure (start ds cpu_count)) (start ds cpu_count))
    as (sched & st & ret & Hex & Hret).
  - done.
  - apply base_inv_start.
  - apply gen_inv_start.
  - apply ok_inv_start.
  - exists sched, (add_many_descriptors itq_index ret).
    unfold add_descriptors_smallcodes, async_compute_smallcodes.
    fold ds. rewrite Hex. cbn [mbind option_bind]. rewrite Hret. done.
Qed.

(** X13. The bound on the output queue holds the workers back: a worker
    with a pair to put can move exactly when fewer than [2 * procs] pairs
    are waiting to be collected. *)
Theorem backpressure self procs ds sched st i o rest k :
  exec self sched (start ds procs) = Some st ->
  workers st !! i = Some (WPut o rest k) ->
  (is_Some (step self (Worker i) st)
   <-> (length (items (out_q st)) < 2 * procs)%nat).
Proof.
  intros Hex Hi. pose proof (base_inv_exec _ _ _ _ _ Hex) as Hb.
  pose proof (base_out_max _ _ _ Hb) as Hmax.
  pose proof (base_workers _ _ _ Hb) as Hws.
  apply lookup_lt_Some in Hi as Hlt.
  cbn [step]. unfold worker_step. rewrite Hi. cbn [mbind option_bind].
  unfold q_put, q_full. rewrite Hmax.
  destruct procs as [|n]; [lia|].
  change (0 <? S n * 2)%nat with true. cbn [andb].
  destruct (S n * 2 <=? length (items (out_q st)))%nat eqn:Hle.
  - apply Nat.leb_le in Hle. split; [by intros [? ?]|lia].
  - apply Nat.leb_gt in Hle. split; [lia|by eauto].
Qed.

End Further.

(** * The claims on concrete data *)

Lemma demo_wf : wf_transform demo_self.
Proof. split; [split; [reflexivity|repeat constructor]|reflexivity]. Defined.

Lemma demo_fits : Forall (fits demo_self) demo_elems.
Proof. repeat constructor. Defined.

Lemma quantize_sign_pattern_demo :
  (wf_transform demo_self
   /\ demo_elems <> []
   /\ Forall (fun d => length (vector d) = shape0 (r demo_self)) demo_elems
   /\ Exact Z)
  /\ (exists m c z,
        np_array (vector <$> demo_elems) = Some m
        /\ np_sub m (m_vec demo_self) = Some c
        /\ rows c
           = (fun v : list Z => zip_with f_sub v (m_vec demo_self))
               <$> (vector <$> demo_elems)
        /\ np_dot c (r demo_self) = Some z
        /\ length (rows z) = length demo_elems
        /\ Forall (fun row => length row = shape1 (r demo_self)) (rows z)
        /\ compute_batch demo_self demo_elems
           = Some (zip_with (fun row d => (bit_vector_to_int (sign_bits row), d))
                     (rows z) demo_elems)
        /\ forall k row i,
             rows z !! k = Some row -> (i < shape1 (r demo_self))%nat ->
             Z.testbit (bit_vector_to_int (sign_bits row))
               (Z.of_nat (shape1 (r demo_self) - 1 - i))
             = f_ge0 (nth i row f_zero))
  /\ (Exact Z ->
      compute_batch demo_self demo_elems
      = Some ((fun d =>
                 (bit_vector_to_int
                    (sign_bits (projection (r demo_self) (m_vec demo_self) (vector d))),
                  d)) <$> demo_elems)
      /\ forall d i,
           d ∈ demo_elems -> (i < shape1 (r demo_self))%nat ->
           Z.testbit (small_code (r demo_self) (m_vec demo_self) (vector d))
             (Z.of_nat (shape1 (r demo_self) - 1 - i))
           = f_ge0 (nth i (projection (r demo_self) (m_vec demo_self) (vector d))
                      f_zero)).
Proof.
  assert (demo_elems <> []) as Hne by discriminate.
  assert (Forall (fun d => length (vector d) = shape0 (r demo_self)) demo_elems)
    as Hlen by repeat constructor.
  split; [split; [exact demo_wf|split; [exact Hne|split; [exact Hlen|exact Z_Exact]]]|].
  exact (quantize_sign_pattern demo_self demo_elems demo_wf Hne Hlen).
Defined.

Lemma code_in_range_demo :
  compute_batch demo_self demo_elems = Some demo_pairs
  /\ Forall (fun o : Z * DescriptorElement Z =>
               0 <= o.1 <= 2 ^ Z.of_nat (shape1 (r demo_self)) - 1) demo_pairs.
Proof.
  assert (compute_batch demo_self demo_elems = Some demo_pairs) as Hc
    by (vm_compute; reflexivity).
  split; [exact Hc|].
  exact (code_in_range demo_self demo_elems demo_pairs Hc).
Defined.

Lemma order_is_kept_demo :
  (compute_batch demo_self demo_elems = Some demo_pairs
   /\ run demo_self demo_packets = (WExited, demo_pairs)
   /\ Exact Z)
  /\ (length demo_pairs = length demo_elems /\ snd <$> demo_pairs = demo_elems
      /\ (exists codes : list (list Z) -> list Z,
            demo_pairs = zip (codes (vector <$> demo_elems)) demo_elems)
      /\ (Exact Z ->
          exists code : list Z -> Z,
            demo_pairs = (fun d => (code (vector d), d)) <$> demo_elems))
  /\ (snd <$> demo_pairs) `prefix_of` accepted demo_packets
  /\ ((WExited : wstate Z) = WExited -> snd <$> demo_pairs = accepted demo_packets).
Proof.
  assert (compute_batch demo_self demo_elems = Some demo_pairs) as Hc
    by (vm_compute; reflexivity).
  assert (run demo_self demo_packets = (WExited, demo_pairs)) as Hr
    by (vm_compute; reflexivity).
  split; [split; [exact Hc|split; [exact Hr|exact Z_Exact]]|].
  exact (order_is_kept demo_self demo_elems demo_pairs demo_packets WExited
           demo_pairs Hc Hr).
Defined.

Lemma sentinel_flushes_batch_demo :
  (wf_transform demo_self
   /\ Forall (fits demo_self) [demo_c]
   /\ Forall (fits demo_self) demo_elems
   /\ Exact Z)
  /\ (on_packet demo_self [] None = WExited
      /\ forall d ds' outs,
           compute_batch demo_self (d :: ds') = Some outs ->
           drain (on_packet demo_self (d :: ds') None) = (WExited, outs)
           /\ snd <$> outs = d :: ds')
  /\ (exists outs,
        on_packet demo_self [demo_c] None = emit outs KExit
        /\ drain (on_packet demo_self [demo_c] None) = (WExited, outs)
        /\ snd <$> outs = [demo_c]
        /\ (Exact Z -> outs = coded demo_self <$> [demo_c]))
  /\ (exists outs,
        run demo_self ((Some <$> demo_elems) ++ None :: [Some demo_d])
        = (WExited, outs)
        /\ snd <$> outs = demo_elems
        /\ (Exact Z -> outs = coded demo_self <$> demo_elems)).
Proof.
  assert (Forall (fits demo_self) [demo_c]) as Hc by repeat constructor.
  split; [split; [exact demo_wf|split; [exact Hc|split; [exact demo_fits|exact Z_Exact]]]|].
  exact (sentinel_flushes_batch demo_self [demo_c] demo_elems [Some demo_d]
           demo_wf Hc demo_fits).
Defined.

Lemma falsy_item_ends_loop_demo :
  (Forall (fun e => truth e = true) demo_elems /\ truth demo_falsy = false)
  /\ (in_loop (on_packet demo_self [demo_a] (Some demo_falsy)) = true ->
      truthy (Some demo_falsy) = true)
  /\ (truthy (Some demo_falsy) = false ->
      on_packet demo_self [demo_a] (Some demo_falsy)
      = on_packet demo_self [demo_a] None
      /\ in_loop (on_packet demo_self [demo_a] (Some demo_falsy)) = false)
  /\ (truthy (Some demo_falsy) = true ->
      exists e,
        Some demo_falsy = Some e
        /\ on_packet demo_self [demo_a] (Some demo_falsy)
           = (if decide (batch demo_self <= length ([demo_a] ++ [e]))%nat
              then match compute_batch demo_self ([demo_a] ++ [e]) with
                   | Some outs => emit outs KLoop
                   | None => WRaised
                   end
              else WGet ([demo_a] ++ [e]))
        /\ (on_packet demo_self [demo_a] (Some demo_falsy) = WRaised
            \/ in_loop (on_packet demo_self [demo_a] (Some demo_falsy)) = true))
  /\ run demo_self ((Some <$> demo_elems) ++ Some demo_falsy :: [Some demo_d; None])
     = run demo_self ((Some <$> demo_elems) ++ [None])
  /\ (snd <$> (run demo_self
                 ((Some <$> demo_elems) ++ Some demo_falsy :: [Some demo_d; None])).2)
       `prefix_of` demo_elems.
Proof.
  assert (Forall (fun e : DescriptorElement Z => truth e = true) demo_elems) as Ht
    by repeat constructor.
  assert (truth demo_falsy = false) as Hf by reflexivity.
  split; [split; [exact Ht|exact Hf]|].
  exact (falsy_item_ends_loop demo_self [demo_a] (Some demo_falsy)
           demo_elems demo_falsy [Some demo_d; None] Ht Hf).
Defined.

Lemma out_queue_bound_demo :
  exec demo_self full_sched (start full_elems 1) = Some full_state
  /\ maxsize (out_q full_state) = (1 * 2)%nat
  /\ (length (items (out_q full_state)) <= 2 * 1)%nat
  /\ (forall x, q_put (in_q full_state) x
                = Some (Build_Queue 0 (items (in_q full_state) ++ [x])))
  /\ (forall rest s, main full_state = MSend rest s ->
                     is_Some (step demo_self Main full_state))
  /\ (forall todo s, main full_state = MTerm todo s ->
                     is_Some (step demo_self Main full_state)).
Proof.
  assert (exec demo_self full_sched (start full_elems 1) = Some full_state) as Hex
    by (vm_compute; reflexivity).
  split; [exact Hex|].
  exact (out_queue_bound demo_self 1 full_elems full_sched full_state Hex).
Defined.

Lemma sentinels_cover_workers_demo :
  exec demo_self demo_sched (start demo_elems 2) = Some demo_final
  /\ fed demo_final ++ (Some <$> to_send (main demo_final))
       ++ replicate (nones_to_send 2 (main demo_final)) None
     = (Some <$> demo_elems) ++ replicate 2 None
  /\ (count_loop (workers demo_final)
      <= count_nones (items (in_q demo_final)) + nones_to_send 2 (main demo_final))%nat
  /\ (forall i d_elems,
        nones_to_send 2 (main demo_final) = 0%nat ->
        workers demo_final !! i = Some (WGet d_elems) ->
        exists p q, q_get (in_q demo_final) = Some (p, q))
  /\ (enabled demo_self demo_final = [] ->
      Forall (fun w => alive w = false) (workers demo_final)).
Proof.
  assert (exec demo_self demo_sched (start demo_elems 2) = Some demo_final) as Hex
    by (vm_compute; reflexivity).
  split; [exact Hex|].
  exact (sentinels_cover_workers demo_self 2 demo_elems demo_sched demo_final Hex).
Defined.

Lemma raised_worker_blocks_caller_demo :
  (exec demo_self bad_sched (start bad_elems 2) = Some bad_state
   /\ WRaised ∈ workers bad_state
   /\ exec demo_self bad_sched' bad_state = Some bad_final)
  /\ returned bad_final = None
  /\ cleaning (main bad_final) = false
  /\ (WTerminated ∉ workers bad_final)
  /\ (length (collected (main bad_final)) < length bad_elems)%nat.
Proof.
  assert (exec demo_self bad_sched (start bad_elems 2) = Some bad_state) as Hex
    by (vm_compute; reflexivity).
  assert (WRaised ∈ workers bad_state) as Hin by left.
  assert (exec demo_self bad_sched' bad_state = Some bad_final) as Hex'
    by (vm_compute; reflexivity).
  split; [split; [exact Hex|split; [exact Hin|exact Hex']]|].
  exact (raised_worker_blocks_caller demo_self 2 bad_elems bad_sched bad_state
           bad_sched' bad_final Hex Hin Hex').
Defined.

Lemma dispatcher_returns_every_element_demo :
  ((1 <= 2)%nat /\ wf_transform demo_self /\ Forall (fits demo_self) demo_elems
   /\ exec demo_self demo_sched (start demo_elems 2) = Some demo_final
   /\ Exact Z)
  /\ (length demo_sched <= measure (start demo_elems 2))%nat
  /\ (exists sched' st' ret,
        exec demo_self sched' demo_final = Some st' /\ returned st' = Some ret)
  /\ (forall ret,
        returned demo_final = Some ret ->
        length ret = length demo_elems
        /\ snd <$> ret ≡ₚ demo_elems
        /\ (uuid <$> (snd <$> ret)) ≡ₚ (uuid <$> demo_elems)
        /\ (Exact Z -> Forall (fun o => o = coded demo_self o.2) ret)).
Proof.
  assert (1 <= 2)%nat as Hp by (repeat constructor).
  assert (exec demo_self demo_sched (start demo_elems 2) = Some demo_final) as Hex
    by (vm_compute; reflexivity).
  split; [split; [exact Hp|split; [exact demo_wf|split; [exact demo_fits|
    split; [exact Hex|exact Z_Exact]]]]|].
  exact (dispatcher_returns_every_element demo_self 2 demo_elems demo_sched
           demo_final Hp demo_wf demo_fits Hex).
Defined.

(** The demonstration run returns the pairs of [b] and [c] before that of
    [a]: the order of the result is not the order of sending. *)
Example demo_returned :
  returned demo_final = Some [(1, demo_b); (2, demo_c); (3, demo_a)].
Proof. vm_compute. reflexivity. Qed.

(** With the output queue full the worker cannot put: the bound holds it
    back until the caller collects. *)
Example full_state_blocks :
  length (items (out_q full_state)) = 2%nat
  /\ step demo_self (Worker 0) full_state = None
  /\ enabled demo_self full_state = [Main].
Proof. repeat split; vm_compute; reflexivity. Qed.

(** On IEEE numbers the threshold is inclusive at both zeros, and a NaN
    gives bit 0. *)
Example sign_bits_float :
  sign_bits [0%float; (-0)%float; 2.5%float; (-1)%float; nan; infinity]
  = [1; 1; 1; 0; 0; 1].
Proof. vm_compute. reflexivity. Qed.

(** A vector equal to the mean projects to zero and gets every bit set;
    every number here is a binary64 number and so are the products and
    the sums. *)
Example compute_batch_float :
  compute_batch (DF := dot_from_left)
    {| r := Build_ndarray2 2 3 [[0.5; -1; 2]; [1.5; 0.25; -3]]%float;
       m_vec := [0.5; 0.25]%float; batch := 500 |}
    [ {| uuid := "m"; vector := [0.5; 0.25]%float; truth := true |};
      {| uuid := "n"; vector := [1.5; 0.25]%float; truth := true |} ]
  = Some [ (7, {| uuid := "m"; vector := [0.5; 0.25]%float; truth := true |});
           (5, {| uuid := "n"; vector := [1.5; 0.25]%float; truth := true |}) ].
Proof. vm_compute. reflexivity. Qed.

(** On IEEE numbers the code of a vector depends on the order in which
    the product adds up: the same batch gets code 1 from the left and
    code 0 from the right. *)
Example summation_order_matters :
  compute_batch (DF := dot_from_left) ones_self [ieee_g] = Some [(1, ieee_g)]
  /\ compute_batch (DF := dot_from_right) ones_self [ieee_g] = Some [(0, ieee_g)].
Proof. split; vm_compute; reflexivity. Qed.

(** C1, refuted as stated: on binary64 numbers the code is not the sign
    pattern of [(v - mean) . rotation].  The vector [10^16; -10^16]
    projects to -1, which asks for code 0; the subtraction of the mean
    rounds [10^16 - 1] to [10^16], both products are exact and their sum
    is 0 in either order, so the code found is 1. *)
Lemma rounding_flips_bit :
  (vector ieee_h = fmap (M := list) float_of_Z (vector exact_h)
   /\ m_vec ieee_self = fmap (M := list) float_of_Z (m_vec exact_self)
   /\ rows (r ieee_self)
      = fmap (M := list) (fmap (M := list) float_of_Z) (rows (r exact_self)))
  /\ projection (r exact_self) (m_vec exact_self) (vector exact_h) = [-1]
  /\ compute_batch exact_self [exact_h] = Some [(0, exact_h)]
  /\ compute_batch (DF := dot_from_left) ieee_self [ieee_h] = Some [(1, ieee_h)]
  /\ compute_batch (DF := dot_from_right) ieee_self [ieee_h] = Some [(1, ieee_h)].
Proof. repeat split; vm_compute; reflexivity. Qed.

(** C3, refuted as stated: worker 0 raises on vectors of the wrong
    length; the run then reaches a state in which nothing can move, with
    the caller still inside its collection loop (nothing returned, nothing
    raised), and worker 1 gone by its own return, not terminated. *)
Lemma raised_worker_hangs :
  exec demo_self (bad_sched ++ bad_sched') (start bad_elems 2) = Some bad_final
  /\ workers bad_final = [WRaised; WExited]
  /\ main bad_final = MCollect 0 2 []
  /\ returned bad_final = None
  /\ enabled demo_self bad_final = [].
Proof. repeat split; vm_compute; reflexivity. Qed.

(** C7, refuted as stated: with no element and one worker the call
    returns, and its [finally] block terminates the worker while the only
    sentinel ever put is still in the input queue. *)
Lemma sentinel_left_unread :
  exec demo_self idle_sched (start [] 1) = Some idle_final
  /\ returned idle_final = Some []
  /\ workers idle_final = [WTerminated]
  /\ fed idle_final = [None]
  /\ items (in_q idle_final) = [None]
  /\ enabled demo_self idle_final = [].
Proof. repeat split; vm_compute; reflexivity. Qed.

(** C9, refuted as stated: a mean of length 1 against a rotation with 2
    rows, and a vector of length 1 against a transform for length 2, are
    both broadcast by NumPy; the batch goes through and codes come out. *)
Lemma broadcast_hides_mismatch :
  (length (m_vec short_mean_self) = 1%nat
   /\ shape0 (r short_mean_self) = 2%nat
   /\ compute_batch short_mean_self demo_elems
      = Some [(1, demo_a); (1, demo_b); (2, demo_c)])
  /\ (length (vector demo_s) = 1%nat
      /\ length (m_vec demo_self) = 2%nat
      /\ shape0 (r demo_self) = 2%nat
      /\ compute_batch demo_self [demo_s] = Some [(2, demo_s)]).
Proof. repeat split; vm_compute; reflexivity. Qed.

(** * Further properties on concrete data *)

Lemma returned_is_everything_demo :
  (exec demo_self demo_sched (start demo_elems 2) = Some demo_final
   /\ returned demo_final = Some [(1, demo_b); (2, demo_c); (3, demo_a)]
   /\ Exact Z)
  /\ length [(1, demo_b); (2, demo_c); (3, demo_a)] = length demo_elems
  /\ snd <$> [(1, demo_b); (2, demo_c); (3, demo_a)] ≡ₚ demo_elems
  /\ (Exact Z ->
      [(1, demo_b); (2, demo_c); (3, demo_a)] ≡ₚ own_pair demo_self <$> demo_elems).
Proof.
  assert (exec demo_self demo_sched (start demo_elems 2) = Some demo_final) as Hex
    by (vm_compute; reflexivity).
  assert (returned demo_final = Some [(1, demo_b); (2, demo_c); (3, demo_a)])
    as Hret by (vm_compute; reflexivity).
  split; [split; [exact Hex|split; [exact Hret|exact Z_Exact]]|].
  exact (returned_is_everything demo_self 2 demo_elems demo_sched demo_final
           _ Hex Hret).
Defined.

Lemma result_unique_up_to_order_demo :
  (r demo_self = r demo_worker /\ m_vec demo_self = m_vec demo_worker
   /\ exec demo_self demo_sched (start demo_elems 2) = Some demo_final
   /\ exec demo_worker solo_sched (start demo_elems 1) = Some solo_final
   /\ returned demo_final = Some [(1, demo_b); (2, demo_c); (3, demo_a)]
   /\ returned solo_final = Some demo_pairs)
  /\ snd <$> [(1, demo_b); (2, demo_c); (3, demo_a)] ≡ₚ snd <$> demo_pairs
  /\ (Exact Z -> [(1, demo_b); (2, demo_c); (3, demo_a)] ≡ₚ demo_pairs).
Proof.
  assert (r demo_self = r demo_worker) as Hr by reflexivity.
  assert (m_vec demo_self = m_vec demo_worker) as Hm by reflexivity.
  assert (exec demo_self demo_sched (start demo_elems 2) = Some demo_final) as Hex
    by (vm_compute; reflexivity).
  assert (exec demo_worker solo_sched (start demo_elems 1) = Some solo_final)
    as Hex' by (vm_compute; reflexivity).
  assert (returned demo_final = Some [(1, demo_b); (2, demo_c); (3, demo_a)])
    as Hret by (vm_compute; reflexivity).
  assert (returned solo_final = Some demo_pairs) as Hret'
    by (vm_compute; reflexivity).
  split; [repeat split; assumption|].
  exact (result_unique_up_to_order demo_self demo_worker 2 1 demo_elems
           demo_sched solo_sched demo_final solo_final _ _ Hr Hm Hex Hex' Hret Hret').
Defined.

Lemma falsy_element_blocks_call_demo :
  (demo_falsy ∈ falsy_elems /\ truth demo_falsy = false
   /\ exec demo_self falsy_sched (start falsy_elems 1) = Some falsy_final)
  /\ returned falsy_final = None.
Proof.
  assert (demo_falsy ∈ falsy_elems) as Hin by (right; left).
  assert (truth demo_falsy = false) as Ht by reflexivity.
  assert (exec demo_self falsy_sched (start falsy_elems 1) = Some falsy_final)
    as Hex by (vm_compute; reflexivity).
  split; [split; [exact Hin|split; [exact Ht|exact Hex]]|].
  exact (falsy_element_blocks_call demo_self 1 falsy_elems demo_falsy
           falsy_sched falsy_final Hin Ht Hex).
Defined.

Lemma no_worker_blocks_call_demo :
  (demo_elems <> []
   /\ exec demo_self alone_sched (start demo_elems 0) = Some alone_final)
  /\ returned alone_final = None.
Proof.
  assert (demo_elems <> []) as Hne by discriminate.
  assert (exec demo_self alone_sched (start demo_elems 0) = Some alone_final)
    as Hex by (vm_compute; reflexivity).
  split; [split; [exact Hne|exact Hex]|].
  exact (no_worker_blocks_call demo_self demo_elems alone_sched alone_final
           Hne Hex).
Defined.

Lemma return_after_cleanup_demo :
  (exec demo_self demo_sched (start demo_elems 2) = Some demo_final
   /\ returned demo_final = Some [(1, demo_b); (2, demo_c); (3, demo_a)])
  /\ Forall (fun w => alive w = false) (workers demo_final)
  /\ (WRaised ∉ workers demo_final)
  /\ items (out_q demo_final) = []
  /\ elems_of (items (in_q demo_final)) = []
  /\ enabled demo_self demo_final = [].
Proof.
  assert (exec demo_self demo_sched (start demo_elems 2) = Some demo_final) as Hex
    by (vm_compute; reflexivity).
  assert (returned demo_final = Some [(1, demo_b); (2, demo_c); (3, demo_a)])
    as Hret by (vm_compute; reflexivity).
  split; [split; [exact Hex|exact Hret]|].
  exact (return_after_cleanup demo_self 2 demo_elems demo_sched demo_final
           _ Hex Hret).
Defined.

Lemma runs_are_bounded_demo :
  exec demo_worker solo_sched (start demo_elems 1) = Some solo_final
  /\ (length solo_sched <= 5 * length demo_elems + 6 * 1 + 4)%nat.
Proof.
  assert (exec demo_worker solo_sched (start demo_elems 1) = Some solo_final)
    as Hex by (vm_compute; reflexivity).
  split; [exact Hex|].
  exact (runs_are_bounded demo_worker 1 demo_elems solo_sched solo_final Hex).
Defined.

Lemma quiescent_dichotomy_demo :
  (exec demo_self falsy_sched (start falsy_elems 1) = Some falsy_final
   /\ enabled demo_self falsy_final = [])
  /\ ((exists ret, returned falsy_final = Some ret)
      \/ (exists i s acc,
            main falsy_final = MCollect i s acc /\ (i < s)%nat
            /\ items (out_q falsy_final) = []
            /\ Forall (fun w => alive w = false) (workers falsy_final))).
Proof.
  assert (exec demo_self falsy_sched (start falsy_elems 1) = Some falsy_final)
    as Hex by (vm_compute; reflexivity).
  assert (enabled demo_self falsy_final = []) as Hen by (vm_compute; reflexivity).
  split; [split; [exact Hex|exact Hen]|].
  exact (quiescent_dichotomy demo_self 1 falsy_elems falsy_sched falsy_final
           Hex Hen).
Defined.

Lemma batch_size_irrelevant_demo :
  (r demo_self = r demo_worker /\ m_vec demo_self = m_vec demo_worker
   /\ run demo_self demo_packets = (WExited, demo_pairs)
   /\ run demo_worker demo_packets = (WExited, demo_pairs))
  /\ snd <$> demo_pairs = accepted demo_packets
  /\ snd <$> demo_pairs = snd <$> demo_pairs
  /\ (Exact Z ->
      demo_pairs = own_pair demo_self <$> accepted demo_packets
      /\ demo_pairs = demo_pairs).
Proof.
  assert (r demo_self = r demo_worker) as Hr by reflexivity.
  assert (m_vec demo_self = m_vec demo_worker) as Hm by reflexivity.
  assert (run demo_self demo_packets = (WExited, demo_pairs)) as Hrun
    by (vm_compute; reflexivity).
  assert (run demo_worker demo_packets = (WExited, demo_pairs)) as Hrun'
    by (vm_compute; reflexivity).
  split; [split; [exact Hr|split; [exact Hm|split; [exact Hrun|exact Hrun']]]|].
  exact (batch_size_irrelevant demo_self demo_worker demo_packets demo_pairs
           demo_pairs Hr Hm Hrun Hrun').
Defined.

Lemma nothing_before_full_batch_demo :
  (Forall (fun e => truth e = true) [demo_b; demo_c]
   /\ (length ([demo_a] ++ [demo_b; demo_c]) < batch demo_worker)%nat)
  /\ feed demo_worker (WGet [demo_a]) (Some <$> [demo_b; demo_c])
     = (WGet ([demo_a] ++ [demo_b; demo_c]), []).
Proof.
  assert (Forall (fun e : DescriptorElement Z => truth e = true) [demo_b; demo_c])
    as Ht by (repeat constructor).
  assert (length ([demo_a] ++ [demo_b; demo_c]) < batch demo_worker)%nat as Hlen
    by (vm_compute; lia).
  split; [split; [exact Ht|exact Hlen]|].
  exact (nothing_before_full_batch demo_worker [demo_a] [demo_b; demo_c] Ht Hlen).
Defined.

Lemma index_gets_every_uuid_demo :
  add_descriptors_smallcodes demo_make_element demo_add_many demo_uuids
    (r demo_self) (m_vec demo_self) 1 [] solo_sched
  = Some (demo_uuids, demo_pairs)
  /\ demo_uuids = demo_uuids
  /\ exists sc_d_pairs,
       demo_pairs = demo_add_many [] sc_d_pairs
       /\ length sc_d_pairs = length demo_uuids
       /\ snd <$> sc_d_pairs ≡ₚ demo_make_element <$> demo_uuids
       /\ (Exact Z ->
           Forall (fun o => o = own_pair (new_worker (r demo_self) (m_vec demo_self)) o.2)
             sc_d_pairs).
Proof.
  assert (add_descriptors_smallcodes demo_make_element demo_add_many demo_uuids
            (r demo_self) (m_vec demo_self) 1 [] solo_sched
          = Some (demo_uuids, demo_pairs)) as Hrun by (vm_compute; reflexivity).
  split; [exact Hrun|].
  exact (index_gets_every_uuid demo_make_element demo_add_many demo_uuids
           (r demo_self) (m_vec demo_self) 1 [] solo_sched demo_uuids demo_pairs
           Hrun).
Defined.

Lemma driver_can_complete_demo :
  ((1 <= 1)%nat
   /\ wf_transform (new_worker (r demo_self) (m_vec demo_self))
   /\ Forall (fun u => fits (new_worker (r demo_self) (m_vec demo_self))
                         (demo_make_element u)) demo_uuids)
  /\ exists sched index',
       add_descriptors_smallcodes demo_make_element demo_add_many demo_uuids
         (r demo_self) (m_vec demo_self) 1 [] sched = Some (demo_uuids, index').
Proof.
  assert (1 <= 1)%nat as Hp by (repeat constructor).
  assert (wf_transform (new_worker (r demo_self) (m_vec demo_self))) as Hwf
    by exact demo_wf.
  assert (Forall (fun u => fits (new_worker (r demo_self) (m_vec demo_self))
                             (demo_make_element u)) demo_uuids) as Hfit
    by (repeat constructor).
  split; [split; [exact Hp|split; [exact Hwf|exact Hfit]]|].
  exact (driver_can_complete demo_make_element demo_add_many demo_uuids
           (r demo_self) (m_vec demo_self) 1 [] Hp Hwf Hfit).
Defined.

Lemma backpressure_demo :
  (exec demo_self full_sched (start full_elems 1) = Some full_state
   /\ workers full_state !! 0%nat = Some (WPut (2, demo_c) [(3, demo_d)] KLoop))
  /\ (is_Some (step demo_self (Worker 0) full_state)
      <-> (length (items (out_q full_state)) < 2 * 1)%nat).
Proof.
  assert (exec demo_self full_sched (start full_elems 1) = Some full_state) as Hex
    by (vm_compute; reflexivity).
  assert (workers full_state !! 0%nat = Some (WPut (2, demo_c) [(3, demo_d)] KLoop))
    as Hw by (vm_compute; reflexivity).
  split; [split; [exact Hex|exact Hw]|].
  exact (backpressure demo_self 1 full_elems full_sched full_state 0
           (2, demo_c) [(3, demo_d)] KLoop Hex Hw).
Defined.
